(** * CTC decoders: [speechbrain/decoders/ctc.py]

    A shallow embedding of [filter_ctc_output] and [ctc_greedy_decode]
    together with the part of Python and of torch that the two functions
    touch, and the properties of the decoder stated over it.

    Conventions of the embedding.
    - A Python call either returns or raises: [result A].
    - Python objects that reach [filter_ctc_output] are ints, strings,
      lists and tuples ([pyval]); [==] on them is structural.
    - A tensor is a nest of [Stack]s over [Scalar]s that remembers the
      shape of its items, so that empty dimensions keep their extent.
    - Scores and relative lengths are finite floats, given by their
      values, which are rationals: comparisons of floats are exact on
      them. The product [seq_len * batch_max_len] is the float32
      product, rounded to the nearest float32 with ties to the even
      significand, and may overflow to an infinity. NaN and infinite
      scores or lengths are outside the model. *)

From Stdlib Require Import String.
From Stdlib Require Import ZArith QArith Qround Qabs List Bool Arith Lia Lqa.
Import ListNotations.

Local Open Scope Z_scope.

(** ** Python: exceptions, results, objects *)

Module Py.

Inductive exn : Type :=
| ValueError
| RuntimeError
| IndexError
| TypeError
| OverflowError.

Inductive result (A : Type) : Type :=
| Ok (a : A)
| Raise (e : exn).

Arguments Ok {A} a.
Arguments Raise {A} e.

Definition bind {A B : Type} (m : result A) (k : A -> result B) : result B :=
  match m with
  | Ok a => k a
  | Raise e => Raise e
  end.

Definition raises {A : Type} (m : result A) : Prop :=
  exists e, m = Raise e.

Unset Elimination Schemes.
Inductive pyval : Type :=
| PyInt (z : Z)
| PyStr (s : string)
| PyList (l : list pyval)
| PyTuple (l : list pyval).
Set Elimination Schemes.

(** [x == y]: ints and strings by value, lists and tuples element by
    element, objects of different kinds never equal. *)
Fixpoint py_eq (x y : pyval) {struct x} : bool :=
  let fix all_eq (l m : list pyval) {struct l} : bool :=
    match l, m with
    | [], [] => true
    | a :: l', b :: m' => py_eq a b && all_eq l' m'
    | _, _ => false
    end in
  match x, y with
  | PyInt a, PyInt b => Z.eqb a b
  | PyStr a, PyStr b => String.eqb a b
  | PyList l, PyList m => all_eq l m
  | PyTuple l, PyTuple m => all_eq l m
  | _, _ => false
  end.

(** [x != y] *)
Definition py_ne (x y : pyval) : bool := negb (py_eq x y).

(** [isinstance(x, list)] *)
Definition isinstance_list (x : pyval) : bool :=
  match x with
  | PyList _ => true
  | _ => false
  end.

(** [enumerate(l)] *)
Definition enumerate {A : Type} (l : list A) : list (nat * A) :=
  combine (seq 0 (length l)) l.

(** The keys of [itertools.groupby(l)] with the identity key function:
    a group is opened by the first element and extended while the next
    element equals the key of the group. *)
Fixpoint groupby_from (tgtkey : pyval) (l : list pyval) : list pyval :=
  match l with
  | [] => []
  | x :: l' =>
      if py_eq tgtkey x then groupby_from tgtkey l'
      else x :: groupby_from x l'
  end.

Definition groupby_keys (l : list pyval) : list pyval :=
  match l with
  | [] => []
  | x :: l' => x :: groupby_from x l'
  end.

End Py.

Export Py.

Declare Scope py_scope.
Delimit Scope py_scope with py.
Notation "x <- m ;; k" := (bind m (fun x => k))
  (at level 61, m at next level, right associativity) : py_scope.
Notation "' p <- m ;; k" := (bind m (fun p => k))
  (at level 61, p pattern, m at next level, right associativity) : py_scope.
Local Open Scope py_scope.

(** ** torch: the tensor operations the decoder calls *)

Module Torch.

(** [Scalar x] is a 0-d tensor; [Stack inner items] has the shape
    [length items :: inner], [inner] being the shape of every item. *)
Unset Elimination Schemes.
Inductive tensor (A : Type) : Type :=
| Scalar (x : A)
| Stack (inner : list nat) (items : list (tensor A)).
Set Elimination Schemes.

Arguments Scalar {A} x.
Arguments Stack {A} inner items.

(** [t.shape] *)
Definition shape {A : Type} (t : tensor A) : list nat :=
  match t with
  | Scalar _ => []
  | Stack inner items => length items :: inner
  end.

(** Every item of every [Stack] has the recorded shape. *)
Fixpoint well_shaped {A : Type} (t : tensor A) : Prop :=
  match t with
  | Scalar _ => True
  | Stack inner items =>
      (fix all (l : list (tensor A)) : Prop :=
         match l with
         | [] => True
         | it :: l' => (shape it = inner /\ well_shaped it) /\ all l'
         end) items
  end.

(** [s[-1]] on a shape: an empty tuple has no last element. *)
Definition shape_last (s : list nat) : result nat :=
  match s with
  | [] => Raise IndexError
  | _ :: _ => Ok (last s 0%nat)
  end.

(** [iter(t)]: the slices along the first dimension; a 0-d tensor is not
    iterable. *)
Definition iter {A : Type} (t : tensor A) : result (list (tensor A)) :=
  match t with
  | Scalar _ => Raise TypeError
  | Stack _ items => Ok items
  end.

Fixpoint tmap {A B : Type} (f : A -> B) (t : tensor A) : tensor B :=
  match t with
  | Scalar x => Scalar (f x)
  | Stack inner items => Stack inner (map (tmap f) items)
  end.

(** Position by position, [f] applied to an accumulator tensor and a
    tensor of the same shape. *)
Fixpoint tzip {A B : Type} (f : A -> B -> A) (acc : tensor A) (t : tensor B)
  {struct acc} : tensor A :=
  match acc, t with
  | Scalar a, Scalar b => Scalar (f a b)
  | Stack inner accs, Stack _ ts =>
      Stack inner
        ((fix zip_items (l : list (tensor A)) (m : list (tensor B))
            {struct l} : list (tensor A) :=
            match l, m with
            | a :: l', b :: m' => tzip f a b :: zip_items l' m'
            | _, _ => []
            end) accs ts)
  | _, _ => acc
  end.

(** The data of [t.narrow(-1, 0, length)] once the bounds are checked:
    the first [length] entries along the last dimension. *)
Fixpoint narrow_items {A : Type} (length : nat) (t : tensor A) : tensor A :=
  match t with
  | Scalar x => Scalar x
  | Stack [] items => Stack [] (firstn length items)
  | Stack inner items =>
      Stack (removelast inner ++ [length]) (map (narrow_items length) items)
  end.

(** The integers an [int64] argument can hold. *)
Definition fits_int64 (z : Z) : bool :=
  (- 2 ^ 63 <=? z) && (z <=? 2 ^ 63 - 1).

(** [t.narrow(-1, 0, length)]: a length that does not fit the [int64]
    argument is refused with a [ValueError]; then the call is refused on
    a 0-d tensor, for a negative length, and for a length beyond the
    extent of the last dimension. *)
Definition narrow_last {A : Type} (t : tensor A) (length : Z)
  : result (tensor A) :=
  if fits_int64 length then
    match shape t with
    | [] => Raise RuntimeError
    | s =>
        if length <? 0 then Raise RuntimeError
        else if Z.of_nat (last s 0%nat) <? length then Raise RuntimeError
        else Ok (narrow_items (Z.to_nat length) t)
    end
  else Raise ValueError.

(** One comparison of the max reduction at one position: the running
    maximum with its index, against the value found at index [i]. The
    maximum moves only for a strictly greater value. *)
Definition max_step (i : Z) (best : Q * Z) (value : Q) : Q * Z :=
  if Qle_bool value (fst best) then best else (value, i).

Fixpoint max_reduce (i : Z) (best : tensor (Q * Z)) (items : list (tensor Q))
  : tensor (Q * Z) :=
  match items with
  | [] => best
  | it :: rest => max_reduce (i + 1) (tzip (max_step i) best it) rest
  end.

(** [torch.max(t, dim=0)]: values and indices of the maximum along the
    first dimension, the index of the first maximal value where several
    are maximal. A first dimension of extent 0 has no maximum and is
    refused; an empty dimension further in gives empty results, as
    current torch has it: zero retained frames decode to an empty
    sequence. *)
Definition max_dim0 (t : tensor Q) : result (tensor Q * tensor Z) :=
  match t with
  | Scalar x => Ok (Scalar x, Scalar 0)
  | Stack _ [] => Raise IndexError
  | Stack _ (t0 :: rest) =>
      let best := max_reduce 1 (tmap (fun x => (x, 0)) t0) rest in
      Ok (tmap fst best, tmap snd best)
  end.

(** [t.tolist()] *)
Fixpoint tolist (t : tensor Z) : pyval :=
  match t with
  | Scalar z => PyInt z
  | Stack _ items => PyList (map tolist items)
  end.

(** The integer nearest to [x], a half going to the even neighbour. *)
Definition round_int (x : Q) : Z :=
  let f := Qfloor x in
  match Qcompare (x - inject_Z f) (1 # 2) with
  | Lt => f
  | Gt => f + 1
  | Eq => if Z.even f then f else f + 1
  end.

(** A float32: a finite value, an infinity or NaN. *)
Inductive f32 : Type :=
| F32 (q : Q)
| F32inf (negative : bool)
| F32nan.

(** [q * 2 ^ k] *)
Definition scale2 (q : Q) (k : Z) : Q :=
  match k with
  | Z0 => q
  | Zpos p => (Qnum q * 2 ^ Zpos p) # Qden q
  | Zneg p => Qnum q # (Qden q * 2 ^ p)%positive
  end.

(** The exponent [e] with [2 ^ e <= q < 2 ^ (e + 1)], for [q > 0]. *)
Definition Qlog2 (q : Q) : Z :=
  let e := Z.log2 (Qnum q) - Z.log2 (Zpos (Qden q)) in
  if Qle_bool (scale2 1 e) q then e else e - 1.

(** [q] rounded to the nearest multiple of its unit in the last place,
    ties going to the even multiple: 24 bits of significand, the unit
    no smaller than [2 ^ -149]. The result is in lowest terms. *)
Definition round24 (q : Q) : Q :=
  let q := Qred q in
  if Qnum q =? 0 then 0%Q
  else
    let a := Qabs q in
    let ulp := Z.max (Qlog2 a - 23) (-149) in
    let m := round_int (scale2 a (- ulp)) in
    let v := Qred (scale2 (inject_Z m) ulp) in
    if Qnum q <? 0 then (- v)%Q else v.

(** The float32 nearest to [q]: an infinity from [2 ^ 128] on. *)
Definition rn32 (q : Q) : f32 :=
  let v := round24 q in
  if Qle_bool (inject_Z (2 ^ 128)) (Qabs v) then F32inf (Qnum v <? 0)
  else F32 v.

(** An [int64] as a float32; it is too small to overflow. *)
Definition f32_of_int (z : Z) : Q := round24 (inject_Z z).

(** [x * n] for a float32 tensor element of value [x] and a Python int
    [n]: the int becomes a float32 and the product is rounded to
    float32. *)
Definition mul_int (x : Q) (n : nat) : f32 :=
  rn32 (x * f32_of_int (Z.of_nat n)).

(** [torch.round(p)] *)
Definition torch_round (p : f32) : f32 :=
  match p with
  | F32 q => F32 (inject_Z (round_int q))
  | _ => p
  end.

(** [int(p)]: the value cut towards zero; an infinity and NaN have no
    integer. *)
Definition py_int (p : f32) : result Z :=
  match p with
  | F32 q => Ok (Z.quot (Qnum q) (Zpos (Qden q)))
  | F32inf _ => Raise OverflowError
  | F32nan => Raise ValueError
  end.

End Torch.

Export Torch.

(** ** [filter_ctc_output] *)

Module Ctc.

(** Line 43: [[v for i, v in enumerate(string_pred)
              if i == 0 or v != string_pred[i - 1]]].
    The index [i - 1] is only read for [i >= 1], where it is in range. *)
Definition filter_repetitions (string_pred : list pyval) : list pyval :=
  map snd
    (filter
       (fun iv : nat * pyval =>
          let (i, v) := iv in
          Nat.eqb i 0 || py_ne v (nth (i - 1) string_pred v))
       (enumerate string_pred)).

(** Line 50: [[i[0] for i in groupby(string_out)]] *)
Definition remove_duplicates (string_out : list pyval) : list pyval :=
  groupby_keys string_out.

(** Line 53: [list(filter(lambda elem: elem != blank_id, string_out))] *)
Definition filter_blank (blank_id : pyval) (string_out : list pyval)
  : list pyval :=
  filter (fun elem => py_ne elem blank_id) string_out.

(** The body of the [isinstance] branch. *)
Definition filter_list (string_pred : list pyval) (blank_id : pyval)
  : list pyval :=
  let string_out := filter_repetitions string_pred in
  let string_out := remove_duplicates string_out in
  let string_out := filter_blank blank_id string_out in
  string_out.

(** Lines 41 to 56: [isinstance(string_pred, list)] holds of a [PyList]
    and of nothing else; every other object takes the [else] branch. *)
Definition filter_ctc_output (string_pred blank_id : pyval) : result pyval :=
  match string_pred with
  | PyList l => Ok (PyList (filter_list l blank_id))
  | _ => Raise ValueError
  end.

(** The signature [filter_ctc_output(string_pred, blank_id=-1)]: a call
    may leave the second argument out. *)
Definition default_blank_id : pyval := PyInt (-1).

Definition filter_ctc_output_call (string_pred : pyval)
  (blank_id : option pyval) : result pyval :=
  filter_ctc_output string_pred
    (match blank_id with
     | Some b => b
     | None => default_blank_id
     end).

(** The two-pass reading of the rule: passes one and three only. *)
Definition filter_two_pass (string_pred : list pyval) (blank_id : pyval)
  : list pyval :=
  filter_blank blank_id (filter_repetitions string_pred).

(** Merging repeats as a recursion on the list: an element is kept when
    it differs from its predecessor [prev]. *)
Fixpoint collapse_from (prev : pyval) (l : list pyval) : list pyval :=
  match l with
  | [] => []
  | x :: l' =>
      if py_ne x prev then x :: collapse_from x l' else collapse_from x l'
  end.

Definition collapse (l : list pyval) : list pyval :=
  match l with
  | [] => []
  | x :: l' => x :: collapse_from x l'
  end.

(** [filter_ctc_output(filter_ctc_output(s, b), b)] *)
Definition filter_twice (string_pred blank_id : pyval) : result pyval :=
  once <- filter_ctc_output string_pred blank_id ;;
  filter_ctc_output once blank_id.

(** No two neighbours of the list are equal. *)
Fixpoint no_adjacent_dup (l : list pyval) : Prop :=
  match l with
  | [] => True
  | x :: l' =>
      match l' with
      | [] => True
      | y :: _ => x <> y /\ no_adjacent_dup l'
      end
  end.

(** No blank of the list stands between two equal elements. *)
Fixpoint no_blank_between (b : pyval) (l : list pyval) : Prop :=
  match l with
  | x :: ((y :: z :: _) as l') => ~ (y = b /\ x = z) /\ no_blank_between b l'
  | _ => True
  end.

(** ** [ctc_greedy_decode] *)

(** Lines 95 to 97: [int(torch.round(seq_len * batch_max_len))] *)
Definition actual_size_of (batch_max_len : nat) (seq_len : Q) : result Z :=
  py_int (torch_round (mul_int seq_len batch_max_len)).

(** Lines 95 to 101: the body of the loop for one example. *)
Definition decode_example (batch_max_len : nat) (blank_id : pyval)
  (seq : tensor Q) (seq_len : Q) : result pyval :=
  actual_size <- actual_size_of batch_max_len seq_len ;;
  narrowed <- narrow_last seq actual_size ;;
  ' (scores, predictions) <- max_dim0 narrowed ;;
  out <- filter_ctc_output (tolist predictions) blank_id ;;
  Ok out.

(** Lines 94 and 102: the loop over the zipped pairs, appending to
    [batch_outputs]; an exception leaves the loop and the function. *)
Fixpoint decode_loop (batch_max_len : nat) (blank_id : pyval)
  (pairs : list (tensor Q * Q)) (batch_outputs : list pyval)
  : result (list pyval) :=
  match pairs with
  | [] => Ok batch_outputs
  | (seq, seq_len) :: rest =>
      out <- decode_example batch_max_len blank_id seq seq_len ;;
      decode_loop batch_max_len blank_id rest (batch_outputs ++ [out])
  end.

(** [seq_lens] is the length vector, given by its elements; [zip] stops
    with the shorter of its two arguments. *)
Definition ctc_greedy_decode (probabilities : tensor Q) (seq_lens : list Q)
  (blank_id : pyval) : result (list pyval) :=
  batch_max_len <- shape_last (shape probabilities) ;;
  seqs <- iter probabilities ;;
  decode_loop batch_max_len blank_id (combine seqs seq_lens) [].

End Ctc.

Export Ctc.

(** ** Score batches and the reading of the decoding rule *)

Module Batch.

(** A batch given by its scores, [batch[b][v][t]]. *)
Definition batch_shape (V T : nat) (batch : list (list (list Q))) : Prop :=
  Forall (fun ex => length ex = V /\ Forall (fun row => length row = T) ex)
    batch.

Definition row_tensor (row : list Q) : tensor Q := Stack [] (map Scalar row).

Definition example_tensor (T : nat) (ex : list (list Q)) : tensor Q :=
  Stack [T] (map row_tensor ex).

Definition tensor_of_batch (V T : nat) (batch : list (list (list Q)))
  : tensor Q :=
  Stack [V; T] (map (example_tensor T) batch).

(** The scores of one time step over the vocabulary. *)
Definition column (t : nat) (ex : list (list Q)) : list Q :=
  map (fun row => nth t row 0%Q) ex.

(** [k] is the index of the maximum of [col], the lowest one if the
    maximum occurs more than once. *)
Definition first_argmax (col : list Q) (k : nat) : Prop :=
  (k < length col)%nat /\
  (forall j, (j < length col)%nat -> (nth j col 0 <= nth k col 0)%Q) /\
  (forall j, (j < k)%nat -> (nth j col 0 < nth k col 0)%Q).

(** [dense] is the arg-max sequence of the first [n] time steps. *)
Definition dense_argmax (ex : list (list Q)) (n : nat) (dense : list nat)
  : Prop :=
  length dense = n /\
  forall t, (t < n)%nat -> first_argmax (column t ex) (nth t dense 0%nat).

(** The Python list of the indices [l]. *)
Definition ints (l : list nat) : pyval :=
  PyList (map (fun k => PyInt (Z.of_nat k)) l).

(** The max reduction on the rows of one example, as lists: one
    comparison per time step for the row of vocabulary index [i]. *)
Definition zip_step (i : Z) (best : list (Q * Z)) (row : list Q)
  : list (Q * Z) :=
  map (fun p : (Q * Z) * Q => max_step i (fst p) (snd p)) (combine best row).

Fixpoint argmax_rows (i : Z) (best : list (Q * Z)) (rows : list (list Q))
  : list (Q * Z) :=
  match rows with
  | [] => best
  | row :: rest => argmax_rows (i + 1) (zip_step i best row) rest
  end.

(** The same reduction along one column. *)
Fixpoint argmax_col (i : Z) (best : Q * Z) (col : list Q) : Q * Z :=
  match col with
  | [] => best
  | v :: rest => argmax_col (i + 1) (max_step i best v) rest
  end.

(** The predictions of one example over its first [n] time steps. *)
Definition predictions_of (n : nat) (ex : list (list Q)) : list Z :=
  match ex with
  | [] => []
  | row0 :: rest =>
      map snd
        (argmax_rows 1 (map (fun x => (x, 0)) (firstn n row0))
           (map (firstn n) rest))
  end.

(** What the loop body comes to on an example given by its rows. *)
Definition decode_rows (T : nat) (blank_id : pyval) (ex : list (list Q))
  (seq_len : Q) : result pyval :=
  n <- actual_size_of T seq_len ;;
  if negb (fits_int64 n) then Raise ValueError
  else if (n <? 0) || (Z.of_nat T <? n) then Raise RuntimeError
  else
    match ex with
    | [] => Raise IndexError
    | _ :: _ =>
        Ok (PyList
              (filter_list (map PyInt (predictions_of (Z.to_nat n) ex))
                 blank_id))
    end.

Fixpoint decode_all (T : nat) (blank_id : pyval)
  (pairs : list (list (list Q) * Q)) : result (list pyval) :=
  match pairs with
  | [] => Ok []
  | (ex, seq_len) :: rest =>
      out <- decode_rows T blank_id ex seq_len ;;
      outs <- decode_all T blank_id rest ;;
      Ok (out :: outs)
  end.

End Batch.

Export Batch.

(** ** Inputs used in the examples *)

Module Examples.

Local Open Scope Q_scope.

(** The batch of the docstring of [ctc_greedy_decode], after its
    [transpose(2, 1)]: B = 2, V = 2, T = 2. *)
Definition doc_scores : list (list (list Q)) :=
  [ [ [3 # 10; 0]; [7 # 10; 0] ];
    [ [2 # 10; 9 # 10]; [8 # 10; 1 # 10] ] ].

Definition doc_probs : tensor Q := tensor_of_batch 2 2 doc_scores.

(** The lengths [[0.51, 1.0]] of the docstring, as float32 values. *)
Definition doc_lens : list Q := [8556380 # 16777216; 1].

(** The float32 values nearest to 0.1 and to 0.7. *)
Definition f32_tenth : Q := 13421773 # 134217728.
Definition f32_seven_tenths : Q := 11744051 # 16777216.

(** One example over two symbols and five frames, the second symbol
    ahead in the frames 0 and 2, the first in the others. *)
Definition five_frames : list (list (list Q)) :=
  [ [ [0; 1; 0; 1; 1]; [1; 0; 1; 0; 0] ] ].

(** One example, one symbol, one frame. *)
Definition unit_probs : tensor Q := tensor_of_batch 1 1 [ [ [1] ] ].

(** A rank-4 tensor of shape (1, 2, 2, 2). *)
Definition rank4_probs : tensor Q := Stack [2; 2; 2]%nat [doc_probs].

(** A rank-2 tensor of shape (1, 2). *)
Definition rank2_probs : tensor Q := Stack [2%nat] [row_tensor [1; 2]].

End Examples.

Export Examples.

(** ** Relations used to state further properties *)

Module Relations.

(** [s] is [l] with some of its elements left out, the order kept. *)
Inductive subsequence : list pyval -> list pyval -> Prop :=
| subsequence_nil : subsequence [] []
| subsequence_skip (x : pyval) (s l : list pyval) :
    subsequence s l -> subsequence s (x :: l)
| subsequence_keep (x : pyval) (s l : list pyval) :
    subsequence s l -> subsequence (x :: s) (x :: l).

(** The number of frames retained for the relative length [l]:
    [actual_size], as a count. *)
Definition frames (T : nat) (l : Q) : nat :=
  match actual_size_of T l with
  | Ok n => Z.to_nat n
  | Raise _ => 0%nat
  end.

(** The relative length [l] retains [n] frames of the [T] of a batch:
    [actual_size] is [n], within the extent, which fits a dimension. *)
Definition retains (T : nat) (l : Q) (n : nat) : Prop :=
  actual_size_of T l = Ok (Z.of_nat n) /\
  (n <= T)%nat /\ Z.of_nat T <= 2 ^ 63 - 1.

(** Two examples carry the same scores in their first [n] frames. *)
Definition same_frames (n : nat) (ex ex' : list (list Q)) : Prop :=
  map (firstn n) ex = map (firstn n) ex'.

(** Every score of the batch sent through [f]. *)
Definition map_scores (f : Q -> Q) (batch : list (list (list Q)))
  : list (list (list Q)) :=
  map (map (map f)) batch.

(** [f] keeps the order of the scores. *)
Definition order_preserving (f : Q -> Q) : Prop :=
  forall x y, Qle_bool (f x) (f y) = Qle_bool x y.

End Relations.

Export Relations.

(** ** Python equality is structural equality *)

Section PyvalInduction.

Variable P : pyval -> Prop.
Hypothesis P_int : forall z, P (PyInt z).
Hypothesis P_str : forall s, P (PyStr s).
Hypothesis P_list : forall l, Forall P l -> P (PyList l).
Hypothesis P_tuple : forall l, Forall P l -> P (PyTuple l).

Fixpoint pyval_nested_ind (v : pyval) : P v :=
  let fix items (l : list pyval) : Forall P l :=
    match l with
    | [] => Forall_nil P
    | x :: l' => Forall_cons x (pyval_nested_ind x) (items l')
    end in
  match v with
  | PyInt z => P_int z
  | PyStr s => P_str s
  | PyList l => P_list l (items l)
  | PyTuple l => P_tuple l (items l)
  end.

End PyvalInduction.

Lemma py_eq_true_iff (x y : pyval) : py_eq x y = true <-> x = y.
Proof.
  revert y. induction x as [a | a | l IH | l IH] using pyval_nested_ind;
    intros [b | b | m | m]; simpl;
    try (split; [discriminate | intros E; discriminate E]).
  - rewrite Z.eqb_eq. split; congruence.
  - rewrite String.eqb_eq. split; congruence.
  - revert m. induction IH as [| x l Hx _ IHl]; intros [| y m];
      try (split; [discriminate | intros E; discriminate E]).
    + split; reflexivity.
    + rewrite andb_true_iff, Hx, IHl. split.
      * intros [-> E]. now injection E as ->.
      * intros E. injection E as -> ->. split; reflexivity.
  - revert m. induction IH as [| x l Hx _ IHl]; intros [| y m];
      try (split; [discriminate | intros E; discriminate E]).
    + split; reflexivity.
    + rewrite andb_true_iff, Hx, IHl. split.
      * intros [-> E]. now injection E as ->.
      * intros E. injection E as -> ->. split; reflexivity.
Qed.

Lemma py_eq_refl (x : pyval) : py_eq x x = true.
Proof. now apply py_eq_true_iff. Qed.

Lemma py_eq_false_iff (x y : pyval) : py_eq x y = false <-> x <> y.
Proof.
  rewrite <- py_eq_true_iff. destruct (py_eq x y); split; congruence.
Qed.

Lemma py_ne_true_iff (x y : pyval) : py_ne x y = true <-> x <> y.
Proof.
  unfold py_ne. rewrite negb_true_iff. apply py_eq_false_iff.
Qed.

Lemma py_ne_false_iff (x y : pyval) : py_ne x y = false <-> x = y.
Proof.
  unfold py_ne. rewrite negb_false_iff. apply py_eq_true_iff.
Qed.

Lemma pyval_eq_dec (x y : pyval) : {x = y} + {x <> y}.
Proof.
  destruct (py_eq x y) eqn:E.
  - left. now apply py_eq_true_iff.
  - right. now apply py_eq_false_iff.
Qed.

(** ** The three passes of [filter_ctc_output] *)

Section Passes.

Implicit Types (l m : list pyval) (x y prev b : pyval).

(** The comprehension of line 43, read from position [length pre] on. *)
Lemma filter_repetitions_from pre prev l :
  map snd
    (filter
       (fun iv : nat * pyval =>
          let (i, v) := iv in
          Nat.eqb i 0 || py_ne v (nth (i - 1) ((pre ++ [prev]) ++ l) v))
       (combine (seq (length (pre ++ [prev])) (length l)) l))
  = collapse_from prev l.
Proof.
  revert pre prev. induction l as [| x l IH]; intros pre prev; [reflexivity |].
  cbn [length seq combine filter collapse_from].
  assert (Hn : nth (length (pre ++ [prev]) - 1) ((pre ++ [prev]) ++ x :: l) x
               = prev).
  { rewrite <- app_assoc. cbn [app]. rewrite length_app. cbn [length].
    replace (length pre + 1 - 1)%nat with (length pre) by lia.
    now rewrite nth_middle. }
  rewrite Hn.
  assert (H0 : Nat.eqb (length (pre ++ [prev])) 0 = false).
  { apply Nat.eqb_neq. rewrite length_app. cbn [length]. lia. }
  rewrite H0. cbn [orb].
  specialize (IH (pre ++ [prev]) x).
  replace (((pre ++ [prev]) ++ [x]) ++ l) with ((pre ++ [prev]) ++ x :: l)
    in IH by (now rewrite <- (app_assoc _ [x] l)).
  replace (length ((pre ++ [prev]) ++ [x])) with (S (length (pre ++ [prev])))
    in IH by (rewrite (length_app _ [x]); cbn [length]; lia).
  destruct (py_ne x prev); cbn [map snd]; now rewrite IH.
Qed.

Lemma filter_repetitions_collapse l : filter_repetitions l = collapse l.
Proof.
  destruct l as [| x l]; [reflexivity |].
  unfold filter_repetitions, enumerate.
  cbn [length seq combine filter Nat.eqb orb map snd collapse].
  f_equal. exact (filter_repetitions_from [] x l).
Qed.

Lemma collapse_from_no_adjacent_dup prev l :
  no_adjacent_dup (prev :: collapse_from prev l).
Proof.
  revert prev. induction l as [| x l IH]; intros prev; [exact I |].
  cbn [collapse_from]. destruct (py_ne x prev) eqn:E.
  - split; [| apply IH]. apply py_ne_true_iff in E. congruence.
  - apply py_ne_false_iff in E. subst x. apply IH.
Qed.

Lemma collapse_no_adjacent_dup l : no_adjacent_dup (collapse l).
Proof.
  destruct l as [| x l]; [exact I | apply collapse_from_no_adjacent_dup].
Qed.

Lemma groupby_from_fixed x l :
  no_adjacent_dup (x :: l) -> groupby_from x l = l.
Proof.
  revert x. induction l as [| y l IH]; intros x H; [reflexivity |].
  destruct H as [Hxy H]. cbn [groupby_from].
  apply py_eq_false_iff in Hxy. rewrite Hxy. f_equal. now apply IH.
Qed.

Lemma groupby_keys_fixed l : no_adjacent_dup l -> groupby_keys l = l.
Proof.
  destruct l as [| x l]; [reflexivity |]. intros H.
  cbn [groupby_keys]. f_equal. now apply groupby_from_fixed.
Qed.

Lemma collapse_from_fixed x l :
  no_adjacent_dup (x :: l) -> collapse_from x l = l.
Proof.
  revert x. induction l as [| y l IH]; intros x H; [reflexivity |].
  destruct H as [Hxy H]. cbn [collapse_from].
  assert (E : py_ne y x = true) by (apply py_ne_true_iff; congruence).
  rewrite E. f_equal. now apply IH.
Qed.

Lemma collapse_fixed_iff l : collapse l = l <-> no_adjacent_dup l.
Proof.
  split.
  - intros E. rewrite <- E. apply collapse_no_adjacent_dup.
  - destruct l as [| x l]; [reflexivity |]. intros H.
    cbn [collapse]. f_equal. now apply collapse_from_fixed.
Qed.

Lemma remove_duplicates_after_repetitions l :
  remove_duplicates (filter_repetitions l) = filter_repetitions l.
Proof.
  unfold remove_duplicates. apply groupby_keys_fixed.
  rewrite filter_repetitions_collapse. apply collapse_no_adjacent_dup.
Qed.

Lemma filter_list_collapse l b :
  filter_list l b = filter_blank b (collapse l).
Proof.
  unfold filter_list. rewrite remove_duplicates_after_repetitions.
  now rewrite filter_repetitions_collapse.
Qed.

Lemma filter_blank_not_in b l : ~ In b (filter_blank b l).
Proof.
  unfold filter_blank. intros H. apply filter_In in H as [_ H].
  apply py_ne_true_iff in H. now apply H.
Qed.

Lemma filter_blank_fixed b l : ~ In b l -> filter_blank b l = l.
Proof.
  unfold filter_blank. induction l as [| x l IH]; intros H; [reflexivity |].
  cbn [filter].
  assert (E : py_ne x b = true).
  { apply py_ne_true_iff. intros ->. apply H. now left. }
  rewrite E. f_equal. apply IH. intros Hin. apply H. now right.
Qed.

Lemma collapse_from_incl prev l x : In x (collapse_from prev l) -> In x l.
Proof.
  revert prev. induction l as [| y l IH]; intros prev; [easy |].
  cbn [collapse_from]. destruct (py_ne y prev).
  - intros [-> | H]; [now left | right; eauto].
  - intros H. right. eauto.
Qed.

Lemma collapse_incl l x : In x (collapse l) -> In x l.
Proof.
  destruct l as [| y l]; [easy |]. cbn [collapse].
  intros [-> | H]; [now left | right; eauto using collapse_from_incl].
Qed.

Lemma filter_list_not_in l b : ~ In b (filter_list l b).
Proof.
  rewrite filter_list_collapse. apply filter_blank_not_in.
Qed.

(** A second application only merges: the blanks are gone already. *)
Lemma filter_list_twice l b :
  filter_list (filter_list l b) b = collapse (filter_list l b).
Proof.
  rewrite (filter_list_collapse (filter_list l b)).
  apply filter_blank_fixed. intros H. apply collapse_incl in H.
  rewrite filter_list_collapse in H. now apply filter_blank_not_in in H.
Qed.

Lemma filter_list_no_blank l b :
  ~ In b l -> filter_list l b = collapse l.
Proof.
  intros H. rewrite filter_list_collapse. apply filter_blank_fixed.
  intros Hin. apply H. now apply collapse_incl.
Qed.

(** Removing the blanks of a list without equal neighbours brings two
    equal elements together exactly where a blank stood between them. *)
Lemma no_adjacent_dup_filter_blank b l :
  no_adjacent_dup l ->
  (no_adjacent_dup (filter_blank b l) <-> no_blank_between b l).
Proof.
  unfold filter_blank. induction l as [| x l IH]; [cbn; tauto |].
  intros Hnd. destruct l as [| y l].
  { cbn [filter]. destruct (py_ne x b); cbn; tauto. }
  destruct Hnd as [Hxy Hnd]. specialize (IH Hnd).
  destruct l as [| z l].
  { cbn [filter no_blank_between].
    destruct (py_ne x b), (py_ne y b); cbn; tauto. }
  destruct Hnd as [Hyz Hnd].
  change (no_blank_between b (x :: y :: z :: l))
    with (~ (y = b /\ x = z) /\ no_blank_between b (y :: z :: l)).
  rewrite <- IH. clear IH. cbn [filter].
  destruct (pyval_eq_dec x b) as [-> | Hxb].
  - assert (Eb : py_ne b b = false) by now apply py_ne_false_iff.
    rewrite Eb. intuition congruence.
  - assert (Ex : py_ne x b = true) by now apply py_ne_true_iff.
    rewrite Ex. destruct (pyval_eq_dec y b) as [-> | Hyb].
    + assert (Eb : py_ne b b = false) by now apply py_ne_false_iff.
      assert (Ez : py_ne z b = true)
        by (apply py_ne_true_iff; congruence).
      rewrite Eb, Ez.
      change (no_adjacent_dup (x :: z :: filter (fun e => py_ne e b) l))
        with (x <> z /\ no_adjacent_dup (z :: filter (fun e => py_ne e b) l)).
      intuition congruence.
    + assert (Ey : py_ne y b = true) by now apply py_ne_true_iff.
      rewrite Ey.
      set (rest := if py_ne z b then z :: filter (fun e => py_ne e b) l
                   else filter (fun e => py_ne e b) l).
      change (no_adjacent_dup (x :: y :: rest))
        with (x <> y /\ no_adjacent_dup (y :: rest)).
      intuition congruence.
Qed.

Lemma filter_list_no_adjacent_dup_iff l b :
  no_adjacent_dup (filter_list l b)
  <-> no_blank_between b (filter_repetitions l).
Proof.
  rewrite filter_list_collapse, filter_repetitions_collapse.
  apply no_adjacent_dup_filter_blank, collapse_no_adjacent_dup.
Qed.

End Passes.

(** ** Properties of [filter_ctc_output] *)

(** C3, as the code has it. A second application of [filter_ctc_output]
    returns the first result exactly when that result has no two equal
    neighbours, that is exactly when, after the merge of repeats, no
    blank stands between two equal symbols; this is the case whenever
    the input holds no blank. The result of the second application is
    stable under any further one. *)
Theorem filter_twice_stable (l : list pyval) (b : pyval) :
  (filter_twice (PyList l) b = filter_ctc_output (PyList l) b
   <-> no_adjacent_dup (filter_list l b)) /\
  (filter_twice (PyList l) b = filter_ctc_output (PyList l) b
   <-> no_blank_between b (filter_repetitions l)) /\
  (~ In b l -> filter_twice (PyList l) b = filter_ctc_output (PyList l) b) /\
  (once <- filter_twice (PyList l) b ;; filter_ctc_output once b)
  = filter_twice (PyList l) b.
Proof.
  rewrite <- filter_list_no_adjacent_dup_iff.
  unfold filter_twice. cbn [filter_ctc_output bind].
  rewrite filter_list_twice.
  assert (Hb : ~ In b (collapse (filter_list l b))).
  { intros H. apply collapse_incl in H. rewrite filter_list_collapse in H.
    now apply filter_blank_not_in in H. }
  assert (Hiff : Ok (PyList (collapse (filter_list l b)))
                 = Ok (PyList (filter_list l b))
                 <-> no_adjacent_dup (filter_list l b)).
  { rewrite <- collapse_fixed_iff. split; congruence. }
  repeat split; try apply Hiff.
  - intros H. apply Hiff.
    rewrite (filter_list_no_blank l b H). apply collapse_no_adjacent_dup.
  - do 2 f_equal. rewrite (filter_list_no_blank _ b Hb).
    apply collapse_fixed_iff, collapse_no_adjacent_dup.
Qed.

Lemma filter_twice_stable_witness :
  ~ In (PyInt 0) [PyInt 3; PyInt 3; PyInt 5] /\
  filter_twice (PyList [PyInt 3; PyInt 3; PyInt 5]) (PyInt 0)
  = filter_ctc_output (PyList [PyInt 3; PyInt 3; PyInt 5]) (PyInt 0).
Proof.
  assert (H : ~ In (PyInt 0) [PyInt 3; PyInt 3; PyInt 5]).
  { cbn [In]. intros [E | [E | [E | []]]]; discriminate E. }
  split; [exact H |].
  exact (proj1 (proj2 (proj2
    (filter_twice_stable [PyInt 3; PyInt 3; PyInt 5] (PyInt 0)))) H).
Defined.

(** C3 as stated fails: on [['a', 'blank', 'a']] the first application
    gives [['a', 'a']] and the second merges it to [['a']]. *)
Lemma filter_ctc_output_not_idempotent :
  filter_ctc_output (PyList [PyStr "a"; PyStr "blank"; PyStr "a"])
    (PyStr "blank")
  = Ok (PyList [PyStr "a"; PyStr "a"]) /\
  filter_twice (PyList [PyStr "a"; PyStr "blank"; PyStr "a"]) (PyStr "blank")
  = Ok (PyList [PyStr "a"]) /\
  filter_twice (PyList [PyStr "a"; PyStr "blank"; PyStr "a"]) (PyStr "blank")
  <> filter_ctc_output (PyList [PyStr "a"; PyStr "blank"; PyStr "a"])
       (PyStr "blank").
Proof.
  repeat split; try reflexivity. discriminate.
Qed.

(** C4, as the code has it. The sequence handed to the blank filter, that
    is the result of the two repetition passes, has no two consecutive
    equal elements, and the output is that sequence without its blanks.
    The output has no two consecutive equal elements exactly when no
    blank of that sequence stands between two equal elements, and so in
    particular whenever the input holds no blank. *)
Theorem no_adjacent_dup_before_blank_filter (l : list pyval) (b : pyval) :
  no_adjacent_dup (remove_duplicates (filter_repetitions l)) /\
  filter_ctc_output (PyList l) b
  = Ok (PyList (filter_blank b (remove_duplicates (filter_repetitions l)))) /\
  (no_adjacent_dup (filter_list l b)
   <-> no_blank_between b (remove_duplicates (filter_repetitions l))) /\
  (~ In b l -> no_adjacent_dup (filter_list l b)).
Proof.
  rewrite remove_duplicates_after_repetitions. repeat split.
  - rewrite filter_repetitions_collapse. apply collapse_no_adjacent_dup.
  - unfold filter_ctc_output, filter_list.
    now rewrite remove_duplicates_after_repetitions.
  - apply filter_list_no_adjacent_dup_iff.
  - apply filter_list_no_adjacent_dup_iff.
  - intros H. rewrite (filter_list_no_blank l b H).
    apply collapse_no_adjacent_dup.
Qed.

Lemma no_adjacent_dup_before_blank_filter_witness :
  ~ In (PyStr "blank") [PyStr "a"; PyStr "a"; PyStr "b"] /\
  no_adjacent_dup
    (filter_list [PyStr "a"; PyStr "a"; PyStr "b"] (PyStr "blank")).
Proof.
  assert (H : ~ In (PyStr "blank") [PyStr "a"; PyStr "a"; PyStr "b"]).
  { cbn [In]. intros [E | [E | [E | []]]]; discriminate E. }
  split; [exact H |].
  exact (proj2 (proj2 (proj2 (no_adjacent_dup_before_blank_filter
    [PyStr "a"; PyStr "a"; PyStr "b"] (PyStr "blank")))) H).
Defined.

(** C4 as stated fails: the output for [['a', 'blank', 'a']] is
    [['a', 'a']], two consecutive equal elements. *)
Lemma output_with_adjacent_dup :
  filter_ctc_output (PyList [PyStr "a"; PyStr "blank"; PyStr "a"])
    (PyStr "blank")
  = Ok (PyList [PyStr "a"; PyStr "a"]) /\
  ~ no_adjacent_dup [PyStr "a"; PyStr "a"].
Proof.
  split; [reflexivity |]. intros [H _]. now apply H.
Qed.

(** C7. For every list and every blank identifier, the output of
    [filter_ctc_output] holds no element equal to the blank. *)
Theorem output_without_blank (l : list pyval) (b : pyval) :
  exists out,
    filter_ctc_output (PyList l) b = Ok (PyList out) /\
    ~ In b out /\
    forall x, In x out -> py_eq x b = false.
Proof.
  exists (filter_list l b). split; [reflexivity |].
  assert (H := filter_list_not_in l b).
  split; [exact H |].
  intros x Hx. apply py_eq_false_iff. intros ->. now apply H.
Qed.

(** C8. [filter_ctc_output] raises [ValueError] exactly when its first
    argument is not a list, and a raise carries no output; for every list
    it returns a list. *)
Theorem filter_ctc_output_raises_iff (string_pred blank_id : pyval) :
  (filter_ctc_output string_pred blank_id = Raise ValueError
   <-> isinstance_list string_pred = false) /\
  (raises (filter_ctc_output string_pred blank_id)
   <-> isinstance_list string_pred = false) /\
  (isinstance_list string_pred = true
   <-> exists l out,
         string_pred = PyList l /\
         filter_ctc_output string_pred blank_id = Ok (PyList out)).
Proof.
  unfold raises.
  destruct string_pred as [z | s | l | l];
    cbn [filter_ctc_output isinstance_list];
    repeat split; try discriminate; try reflexivity;
    try (intros _; now exists ValueError);
    try (intros [e E]; discriminate E);
    try (intros (l' & out & E & _); discriminate E).
  intros _. now exists l, (filter_list l blank_id).
Qed.

(** C9. A call without a blank identifier takes [-1] for it: the call
    equals the one with [-1] given, and on a list it returns a list
    without any [-1]. *)
Theorem default_blank_is_minus_one (string_pred : pyval) :
  filter_ctc_output_call string_pred None
  = filter_ctc_output string_pred (PyInt (-1)) /\
  filter_ctc_output_call string_pred None
  = filter_ctc_output_call string_pred (Some (PyInt (-1))) /\
  forall l, string_pred = PyList l ->
    exists out,
      filter_ctc_output_call string_pred None = Ok (PyList out) /\
      ~ In (PyInt (-1)) out.
Proof.
  repeat split. intros l ->.
  exists (filter_list l default_blank_id). split; [reflexivity |].
  apply filter_list_not_in.
Qed.

Lemma default_blank_is_minus_one_witness :
  filter_ctc_output_call (PyList [PyInt 2; PyInt (-1); PyInt 2]) None
  = Ok (PyList [PyInt 2; PyInt 2]).
Proof.
  destruct (proj2 (proj2 (default_blank_is_minus_one
    (PyList [PyInt 2; PyInt (-1); PyInt 2])))
    [PyInt 2; PyInt (-1); PyInt 2] eq_refl) as (out & E & _).
  reflexivity.
Defined.

(** C10. The three passes of [filter_ctc_output] equal the first and the
    third composed: the [groupby] pass returns its input, which has no
    two equal neighbours after the first pass. *)
Theorem groupby_pass_redundant (l : list pyval) (b : pyval) :
  filter_list l b = filter_two_pass l b /\
  filter_ctc_output (PyList l) b = Ok (PyList (filter_two_pass l b)) /\
  remove_duplicates (filter_repetitions l) = filter_repetitions l /\
  no_adjacent_dup (filter_repetitions l).
Proof.
  unfold filter_ctc_output, filter_list, filter_two_pass.
  rewrite remove_duplicates_after_repetitions. repeat split.
  rewrite filter_repetitions_collapse. apply collapse_no_adjacent_dup.
Qed.

(** ** Rounding to the number of frames *)

Section Rounding.

Local Open Scope Q_scope.

Lemma round_int_cases (x : Q) :
  let f := Qfloor x in
  inject_Z f <= x /\ x < inject_Z f + 1 /\
  ((round_int x = f /\
    (x - inject_Z f < 1 # 2 \/
     (x - inject_Z f == 1 # 2 /\ Z.even f = true))) \/
   (round_int x = (f + 1)%Z /\
    (1 # 2 < x - inject_Z f \/
     (x - inject_Z f == 1 # 2 /\ Z.even f = false)))).
Proof.
  intros f. assert (Hlo := Qfloor_le x). assert (Hhi := Qlt_floor x).
  rewrite inject_Z_plus in Hhi. fold f in Hlo, Hhi.
  change (inject_Z 1) with 1 in Hhi.
  repeat split; try assumption.
  unfold round_int. fold f.
  destruct (Qcompare (x - inject_Z f) (1 # 2)) eqn:E.
  - apply Qeq_alt in E. destruct (Z.even f) eqn:Ev.
    + left. split; [reflexivity | now right].
    + right. split; [reflexivity | now right].
  - apply Qlt_alt in E. left. split; [reflexivity | now left].
  - apply Qgt_alt in E. right. split; [reflexivity | now left].
Qed.

(** A product within [[0, T]] rounds within [[0, T]]. *)
Lemma round_int_in_range (x : Q) (T : Z) :
  0 <= x -> x <= inject_Z T -> (0 <= round_int x <= T)%Z.
Proof.
  intros H0 HT. destruct (round_int_cases x) as (Hlo & Hhi & Hc).
  set (f := Qfloor x) in *.
  assert (Hf0 : (0 <= f)%Z).
  { apply Z.lt_succ_r. unfold Z.succ. rewrite Zlt_Qlt.
    rewrite inject_Z_plus. change (inject_Z 1) with 1.
    change (inject_Z 0) with 0. lra. }
  assert (HfT : (f <= T)%Z) by (rewrite Zle_Qle; lra).
  destruct Hc as [[-> _] | [-> Hc]]; [lia |].
  split; [lia |].
  apply Z.le_succ_l. rewrite Zlt_Qlt. destruct Hc as [Hc | [Hc _]]; lra.
Qed.

(** A product below [-1/2] rounds below zero. *)
Lemma round_int_negative (x : Q) : x < -(1 # 2) -> (round_int x < 0)%Z.
Proof.
  intros H. destruct (round_int_cases x) as (Hlo & Hhi & Hc).
  set (f := Qfloor x) in *.
  destruct Hc as [[-> _] | [-> Hc]].
  - rewrite Zlt_Qlt. change (inject_Z 0) with 0. lra.
  - rewrite Zlt_Qlt. rewrite inject_Z_plus. change (inject_Z 1) with 1.
    change (inject_Z 0) with 0. destruct Hc as [Hc | [Hc _]]; lra.
Qed.

(** A product within [[-1/2, 0]] rounds to zero: the half goes to the
    even neighbour. *)
Lemma round_int_zero (x : Q) : -(1 # 2) <= x -> x <= 0 -> round_int x = 0%Z.
Proof.
  intros Hl Hu. destruct (round_int_cases x) as (Hlo & Hhi & Hc).
  set (f := Qfloor x) in *.
  assert (Hf0 : (f <= 0)%Z).
  { rewrite Zle_Qle. change (inject_Z 0) with 0. lra. }
  assert (Hf1 : (-2 < f)%Z).
  { rewrite Zlt_Qlt. change (inject_Z (-2)) with (-(2 # 1)). lra. }
  assert (Hf : f = 0%Z \/ f = (-1)%Z) by lia.
  destruct Hf as [Hf | Hf]; rewrite Hf in *.
  - change (inject_Z 0) with 0 in *.
    destruct Hc as [[-> _] | [_ Hc]]; [reflexivity |].
    destruct Hc as [Hc | [Hc _]]; lra.
  - change (inject_Z (-1)) with (-(1 # 1)) in *.
    destruct Hc as [[_ Hc] | [-> _]]; [| reflexivity].
    destruct Hc as [Hc | [_ Hc]]; [lra | discriminate Hc].
Qed.

(** A product above [T + 1/2] rounds above [T]. *)
Lemma round_int_above (x : Q) (T : Z) :
  inject_Z T + (1 # 2) < x -> (T < round_int x)%Z.
Proof.
  intros H. destruct (round_int_cases x) as (Hlo & Hhi & Hc).
  set (f := Qfloor x) in *.
  destruct Hc as [[-> Hc] | [-> _]].
  - rewrite Zlt_Qlt. destruct Hc as [Hc | [Hc _]]; lra.
  - rewrite Zlt_Qlt, inject_Z_plus. change (inject_Z 1) with 1. lra.
Qed.

Lemma round_int_monotone (x y : Q) :
  x <= y -> (round_int x <= round_int y)%Z.
Proof.
  intros H. assert (Hf := Qfloor_resp_le x y H).
  destruct (round_int_cases x) as (Hxlo & Hxhi & Hx).
  destruct (round_int_cases y) as (Hylo & Hyhi & Hy).
  set (fx := Qfloor x) in *. set (fy := Qfloor y) in *.
  destruct Hx as [[-> _] | [-> Hx]].
  - destruct Hy as [[-> _] | [-> _]]; lia.
  - destruct (Z.eq_dec fx fy) as [E | E].
    + rewrite E in *. destruct Hy as [[_ Hy] | [-> _]]; [| lia].
      exfalso. destruct Hx as [Hx | [Hx Hodd]].
      * destruct Hy as [Hy | [Hy _]]; lra.
      * destruct Hy as [Hy | [_ Heven]]; [lra | congruence].
    + destruct Hy as [[-> _] | [-> _]]; lia.
Qed.

Lemma round_int_integer (x : Q) (n : Z) : x == inject_Z n -> round_int x = n.
Proof.
  intros H. destruct (round_int_cases x) as (Hlo & Hhi & Hc).
  set (f := Qfloor x) in *.
  assert (Hf : f = n).
  { apply Z.le_antisymm.
    - rewrite Zle_Qle. lra.
    - apply Z.lt_succ_r. unfold Z.succ. rewrite Zlt_Qlt, inject_Z_plus.
      change (inject_Z 1) with 1. lra. }
  rewrite Hf in *.
  destruct Hc as [[-> _] | [_ Hc]]; [reflexivity |].
  destruct Hc as [Hc | [Hc _]]; lra.
Qed.

End Rounding.

(** ** The float32 product and the frame count *)

Section Float32.

Local Open Scope Q_scope.

Lemma round_int_nonneg (x : Q) : 0 <= x -> (0 <= round_int x)%Z.
Proof.
  intros H. change 0%Z with (round_int 0). now apply round_int_monotone.
Qed.

Lemma round_int_nonpos (x : Q) : x <= 0 -> (round_int x <= 0)%Z.
Proof.
  intros H. change 0%Z with (round_int 0). now apply round_int_monotone.
Qed.

Lemma scale2_nonneg (q : Q) (k : Z) : 0 <= q -> 0 <= scale2 q k.
Proof.
  unfold Qle, scale2. destruct k as [| p | p]; cbn [Qnum Qden]; intros H.
  - exact H.
  - assert (Hp : (0 < 2 ^ Z.pos p)%Z) by (apply Z.pow_pos_nonneg; lia).
    nia.
  - lia.
Qed.

Lemma round24_zero (q : Q) : q == 0 -> round24 q = 0.
Proof.
  intros H. unfold round24. now rewrite (Qred_complete q 0 H).
Qed.

Lemma round24_nonneg (q : Q) : 0 <= q -> 0 <= round24 q.
Proof.
  intros H. unfold round24.
  assert (Hq : 0 <= Qred q) by now rewrite Qred_correct.
  destruct (Qnum (Qred q) =? 0)%Z; [apply Qle_refl |].
  destruct (Z.ltb_spec (Qnum (Qred q)) 0) as [Hneg | _].
  - exfalso. unfold Qle in Hq. cbn in Hq. lia.
  - rewrite Qred_correct. apply scale2_nonneg.
    change 0 with (inject_Z 0). rewrite <- Zle_Qle.
    apply round_int_nonneg, scale2_nonneg, Qabs_nonneg.
Qed.

Lemma round24_nonpos (q : Q) : q <= 0 -> round24 q <= 0.
Proof.
  intros H. unfold round24.
  assert (Hq : Qred q <= 0) by now rewrite Qred_correct.
  destruct (Z.eqb_spec (Qnum (Qred q)) 0) as [_ | Hne]; [apply Qle_refl |].
  destruct (Z.ltb_spec (Qnum (Qred q)) 0) as [_ | Hpos].
  - assert (Hv : 0 <= Qred
                        (scale2
                           (inject_Z
                              (round_int
                                 (scale2 (Qabs (Qred q))
                                    (- Z.max (Qlog2 (Qabs (Qred q)) - 23)
                                         (-149)))))
                           (Z.max (Qlog2 (Qabs (Qred q)) - 23) (-149)))).
    { rewrite Qred_correct. apply scale2_nonneg.
      change 0 with (inject_Z 0). rewrite <- Zle_Qle.
      apply round_int_nonneg, scale2_nonneg, Qabs_nonneg. }
    lra.
  - exfalso. unfold Qle in Hq. cbn in Hq. lia.
Qed.

Lemma rn32_finite (q p : Q) : rn32 q = F32 p -> p = round24 q.
Proof.
  unfold rn32. destruct (Qle_bool _ _); [discriminate |].
  intros H. now injection H as <-.
Qed.

Lemma rn32_zero (q : Q) : q == 0 -> rn32 q = F32 0.
Proof.
  intros H. unfold rn32. now rewrite (round24_zero q H).
Qed.

Lemma f32_of_int_nonneg (T : nat) : 0 <= f32_of_int (Z.of_nat T).
Proof.
  apply round24_nonneg. change 0 with (inject_Z 0). rewrite <- Zle_Qle. lia.
Qed.

Lemma py_int_torch_round (p : Q) :
  py_int (torch_round (F32 p)) = Ok (round_int p).
Proof.
  cbn [torch_round py_int inject_Z Qnum Qden]. now rewrite Z.quot_1_r.
Qed.

(** The frame count is the nearest integer to the float32 product. *)
Lemma actual_size_of_finite (T : nat) (l p : Q) :
  mul_int l T = F32 p -> actual_size_of T l = Ok (round_int p).
Proof.
  intros H. unfold actual_size_of. rewrite H. apply py_int_torch_round.
Qed.

Lemma actual_size_of_ok (T : nat) (l : Q) (n : Z) :
  actual_size_of T l = Ok n ->
  exists p, mul_int l T = F32 p /\ n = round_int p.
Proof.
  unfold actual_size_of. destruct (mul_int l T) as [p | s |] eqn:E;
    try discriminate.
  rewrite py_int_torch_round. intros H. injection H as <-. now exists p.
Qed.

(** The relative length 0 retains no frame. *)
Lemma actual_size_of_zero (T : nat) (l : Q) :
  l == 0 -> actual_size_of T l = Ok 0%Z.
Proof.
  intros H. apply (actual_size_of_finite T l 0).
  unfold mul_int. apply rn32_zero. rewrite H. apply Qmult_0_l.
Qed.

(** A relative length that is not positive retains no frame or has a
    negative frame count. *)
Lemma actual_size_of_nonpos (T : nat) (l : Q) (n : Z) :
  l <= 0 -> actual_size_of T l = Ok n -> (n <= 0)%Z.
Proof.
  intros Hl H. apply actual_size_of_ok in H as (p & Hp & ->).
  unfold mul_int in Hp. apply rn32_finite in Hp. subst p.
  apply round_int_nonpos, round24_nonpos.
  assert (Ht := f32_of_int_nonneg T).
  rewrite <- (Qmult_0_l (f32_of_int (Z.of_nat T))).
  now apply Qmult_le_compat_r.
Qed.

(** The frame count fails only when the product is infinite. *)
Lemma actual_size_of_raise (T : nat) (l : Q) (e : exn) :
  actual_size_of T l = Raise e -> e = OverflowError.
Proof.
  unfold actual_size_of, mul_int, rn32.
  destruct (Qle_bool _ _); cbn [torch_round py_int]; congruence.
Qed.

(** Without frames the product is zero. *)
Lemma actual_size_of_no_frames (l : Q) : actual_size_of 0 l = Ok 0%Z.
Proof.
  apply (actual_size_of_finite 0 l 0). unfold mul_int. apply rn32_zero.
  change (f32_of_int (Z.of_nat 0)) with 0. apply Qmult_0_r.
Qed.

Lemma frames_retains (T : nat) (l : Q) (n : nat) :
  retains T l n -> frames T l = n.
Proof.
  intros [H _]. unfold frames. rewrite H. apply Nat2Z.id.
Qed.

End Float32.

(** ** The tensor operations on an example given by its rows *)

Section TensorRows.

Implicit Types (row : list Q) (ex : list (list Q)) (best : list (Q * Z)).

Lemma tmap_scalars {A B : Type} (f : A -> B) (l : list A) :
  tmap f (Stack [] (map Scalar l)) = Stack [] (map Scalar (map f l)).
Proof.
  cbn [tmap]. f_equal. rewrite !map_map. reflexivity.
Qed.

Lemma tzip_row i best row :
  tzip (max_step i) (Stack [] (map Scalar best)) (row_tensor row)
  = Stack [] (map Scalar (zip_step i best row)).
Proof.
  unfold row_tensor, zip_step. cbn [tzip]. f_equal.
  revert row. induction best as [| b best IH]; intros [| v row];
    cbn [map combine]; try reflexivity.
  cbn [tzip fst snd]. f_equal. apply IH.
Qed.

Lemma max_reduce_rows i best (rows : list (list Q)) :
  max_reduce i (Stack [] (map Scalar best)) (map row_tensor rows)
  = Stack [] (map Scalar (argmax_rows i best rows)).
Proof.
  revert i best. induction rows as [| row rows IH]; intros i best;
    [reflexivity |].
  cbn [map max_reduce argmax_rows]. rewrite tzip_row. apply IH.
Qed.

Lemma narrow_items_row (n : nat) row :
  narrow_items n (row_tensor row) = row_tensor (firstn n row).
Proof.
  unfold row_tensor. cbn [narrow_items]. now rewrite firstn_map.
Qed.

Lemma narrow_items_example (n T : nat) ex :
  narrow_items n (example_tensor T ex) = example_tensor n (map (firstn n) ex).
Proof.
  unfold example_tensor. cbn [narrow_items removelast app]. f_equal.
  rewrite !map_map. apply map_ext. intros row. apply narrow_items_row.
Qed.

Lemma narrow_last_example (T : nat) ex (n : Z) :
  narrow_last (example_tensor T ex) n
  = if negb (fits_int64 n) then Raise ValueError
    else if (n <? 0) || (Z.of_nat T <? n) then Raise RuntimeError
    else Ok (example_tensor (Z.to_nat n) (map (firstn (Z.to_nat n)) ex)).
Proof.
  unfold narrow_last. destruct (fits_int64 n); cbn [negb]; [| reflexivity].
  change (shape (example_tensor T ex)) with [length (map row_tensor ex); T].
  cbn [last]. destruct (n <? 0); cbn [orb]; [reflexivity |].
  destruct (Z.of_nat T <? n); [reflexivity |].
  now rewrite narrow_items_example.
Qed.

Lemma max_dim0_example (n : nat) row0 (rest : list (list Q)) :
  max_dim0 (example_tensor n (row0 :: rest))
  = let best := argmax_rows 1 (map (fun x => (x, 0)) row0) rest in
    Ok (Stack [] (map Scalar (map fst best)),
        Stack [] (map Scalar (map snd best))).
Proof.
  unfold example_tensor. cbn [map max_dim0].
  change (row_tensor row0) with (Stack [] (map Scalar row0)).
  rewrite tmap_scalars, max_reduce_rows. now rewrite !tmap_scalars.
Qed.

Lemma tolist_scalars (l : list Z) :
  tolist (Stack [] (map Scalar l)) = PyList (map PyInt l).
Proof.
  cbn [tolist]. f_equal. rewrite map_map. reflexivity.
Qed.

Lemma decode_example_rows (T : nat) (blank_id : pyval) ex (seq_len : Q) :
  decode_example T blank_id (example_tensor T ex) seq_len
  = decode_rows T blank_id ex seq_len.
Proof.
  unfold decode_example, decode_rows.
  destruct (actual_size_of T seq_len) as [n | e]; [| reflexivity].
  cbn [bind]. rewrite narrow_last_example.
  destruct (negb (fits_int64 n)); [reflexivity |].
  destruct ((n <? 0) || (Z.of_nat T <? n)); [reflexivity |].
  cbn [bind]. destruct ex as [| row0 rest]; [reflexivity |].
  cbn [map]. rewrite max_dim0_example. cbn [bind].
  rewrite tolist_scalars. reflexivity.
Qed.

End TensorRows.

(** ** The max reduction finds the first maximum of every column *)

Section Argmax.

Local Open Scope Q_scope.

Implicit Types (col pre rest : list Q) (k : nat).

Lemma first_argmax_singleton (v : Q) : first_argmax [v] 0.
Proof.
  repeat split.
  - cbn [length]. lia.
  - intros [| j] Hj; cbn [length] in Hj; [apply Qle_refl | lia].
  - intros j Hj. lia.
Qed.

(** One more value at the end of the column: the maximum stays unless
    the value is strictly greater. *)
Lemma first_argmax_snoc pre k (v : Q) :
  first_argmax pre k ->
  first_argmax (pre ++ [v])
    (if Qle_bool v (nth k pre 0) then k else length pre).
Proof.
  intros (Hk & Hmax & Hfirst).
  assert (Hpre : forall j, (j < length pre)%nat ->
                           nth j (pre ++ [v]) 0 = nth j pre 0)
    by (intros j Hj; now apply app_nth1).
  assert (Hv : nth (length pre) (pre ++ [v]) 0 = v) by apply nth_middle.
  assert (Hlen : length (pre ++ [v]) = S (length pre))
    by (rewrite length_app; cbn [length]; lia).
  destruct (Qle_bool v (nth k pre 0)) eqn:E.
  - apply Qle_bool_iff in E. unfold first_argmax. rewrite Hlen.
    split; [lia |]. split.
    + intros j Hj. rewrite (Hpre k Hk).
      destruct (Nat.eq_dec j (length pre)) as [-> | Hne].
      * now rewrite Hv.
      * rewrite Hpre by lia. apply Hmax. lia.
    + intros j Hj. rewrite (Hpre k Hk), Hpre by lia. now apply Hfirst.
  - assert (Hlt : nth k pre 0 < v).
    { apply Qnot_le_lt. intros H. apply Qle_bool_iff in H. congruence. }
    unfold first_argmax. rewrite Hlen, Hv.
    split; [lia |]. split.
    + intros j Hj. destruct (Nat.eq_dec j (length pre)) as [-> | Hne].
      * rewrite Hv. apply Qle_refl.
      * rewrite Hpre by lia. apply Qlt_le_weak.
        apply Qle_lt_trans with (nth k pre 0); [apply Hmax; lia | exact Hlt].
    + intros j Hj. rewrite Hpre by lia.
      apply Qle_lt_trans with (nth k pre 0); [now apply Hmax | exact Hlt].
Qed.

Lemma argmax_col_first rest :
  forall pre k,
    first_argmax pre k ->
    exists k',
      argmax_col (Z.of_nat (length pre)) (nth k pre 0, Z.of_nat k) rest
      = (nth k' (pre ++ rest) 0, Z.of_nat k') /\
      first_argmax (pre ++ rest) k'.
Proof.
  induction rest as [| v rest IH]; intros pre k H.
  - exists k. rewrite app_nil_r. now split.
  - cbn [argmax_col]. unfold max_step. cbn [fst].
    assert (Hsnoc := first_argmax_snoc pre k v H).
    assert (Hlen : (Z.of_nat (length pre) + 1)%Z
                   = Z.of_nat (length (pre ++ [v])))
      by (rewrite length_app; cbn [length]; lia).
    assert (Hk : (k < length pre)%nat) by apply H.
    rewrite Hlen.
    replace (pre ++ v :: rest) with ((pre ++ [v]) ++ rest)
      by (now rewrite <- app_assoc).
    destruct (Qle_bool v (nth k pre 0)).
    + specialize (IH (pre ++ [v]) k Hsnoc).
      now rewrite app_nth1 in IH by exact Hk.
    + specialize (IH (pre ++ [v]) (length pre) Hsnoc).
      now rewrite nth_middle in IH.
Qed.

(** The reduction of a whole column, from its first entry. *)
Lemma argmax_col_column (v : Q) rest :
  exists k,
    argmax_col 1 (v, 0%Z) rest = (nth k (v :: rest) 0, Z.of_nat k) /\
    first_argmax (v :: rest) k.
Proof.
  exact (argmax_col_first rest [v] 0%nat (first_argmax_singleton v)).
Qed.

End Argmax.

(** ** The reduction over rows, column by column *)

Section Columns.

Implicit Types (row : list Q) (rows ex : list (list Q)) (best : list (Q * Z)).

Lemma length_zip_step i best row :
  length best = length row -> length (zip_step i best row) = length row.
Proof.
  intros H. unfold zip_step. rewrite length_map, length_combine. lia.
Qed.

Lemma nth_zip_step i best row (t : nat) (d : Q * Z) :
  length best = length row -> (t < length row)%nat ->
  nth t (zip_step i best row) d = max_step i (nth t best d) (nth t row 0%Q).
Proof.
  intros H Ht. unfold zip_step.
  rewrite nth_indep with (d' := max_step i (fst (d, 0%Q)) (snd (d, 0%Q)))
    by (rewrite length_map, length_combine; lia).
  rewrite (map_nth (fun p : (Q * Z) * Q => max_step i (fst p) (snd p))).
  now rewrite combine_nth.
Qed.

Lemma argmax_rows_columns rows :
  forall i best (n : nat),
    length best = n -> Forall (fun row => length row = n) rows ->
    length (argmax_rows i best rows) = n /\
    forall (t : nat) (d : Q * Z), (t < n)%nat ->
      nth t (argmax_rows i best rows) d
      = argmax_col i (nth t best d) (column t rows).
Proof.
  induction rows as [| row rows IH]; intros i best n Hb Hrows.
  - split; [exact Hb | reflexivity].
  - apply Forall_cons_iff in Hrows as [Hrow Hrest].
    cbn [argmax_rows column map argmax_col].
    assert (Hlen : length best = length row) by congruence.
    destruct (IH (i + 1)%Z (zip_step i best row) n) as [Hl Hn].
    + rewrite length_zip_step; assumption.
    + exact Hrest.
    + split; [exact Hl |].
      intros t d Ht. rewrite Hn by exact Ht.
      rewrite nth_zip_step; [reflexivity | exact Hlen | lia].
Qed.

Lemma column_firstn (n t : nat) ex :
  (t < n)%nat -> column t (map (firstn n) ex) = column t ex.
Proof.
  intros Ht. unfold column. rewrite map_map. apply map_ext.
  intros row. rewrite nth_firstn.
  now destruct (Nat.ltb_spec t n); [| lia].
Qed.

(** The predictions of a well-shaped example are the first arg-max of
    each of its first [n] time steps. *)
Lemma predictions_of_dense (T n : nat) ex :
  ex <> [] -> Forall (fun row => length row = T) ex -> (n <= T)%nat ->
  exists dense,
    dense_argmax ex n dense /\
    map PyInt (predictions_of n ex) = map (fun k => PyInt (Z.of_nat k)) dense.
Proof.
  intros Hex Hrows Hn. destruct ex as [| row0 rest]; [congruence |].
  inversion Hrows as [| ? ? Hrow0 Hrest]; subst.
  set (best0 := map (fun x : Q => (x, 0)) (firstn n row0)).
  assert (Hb : length best0 = n).
  { unfold best0. rewrite length_map, length_firstn. lia. }
  assert (Hr : Forall (fun row => length row = n) (map (firstn n) rest)).
  { apply Forall_map. revert Hrest. apply Forall_impl.
    intros row Hrow. rewrite length_firstn. lia. }
  destruct (argmax_rows_columns (map (firstn n) rest) 1 best0 n Hb Hr)
    as [Hl Hcol].
  assert (Hbest0 : forall t, (t < n)%nat ->
                     nth t best0 (0%Q, 0) = (nth t row0 0%Q, 0)).
  { intros t Ht. unfold best0.
    change (0%Q, 0) with ((fun x : Q => (x, 0)) 0%Q) at 1.
    rewrite map_nth, nth_firstn.
    now destruct (Nat.ltb_spec t n); [| lia]. }
  assert (Hpos : forall t, (t < n)%nat ->
            exists k,
              nth t (predictions_of n (row0 :: rest)) 0 = Z.of_nat k /\
              first_argmax (column t (row0 :: rest)) k).
  { intros t Ht. cbn [predictions_of]. fold best0.
    change 0 with (snd (0%Q, 0)) at 1. rewrite map_nth.
    rewrite Hcol, Hbest0, column_firstn by exact Ht.
    destruct (argmax_col_column (nth t row0 0%Q) (column t rest))
      as (k & E & Hk).
    exists k. rewrite E. split; [reflexivity | exact Hk]. }
  assert (Hlen : length (predictions_of n (row0 :: rest)) = n).
  { cbn [predictions_of]. fold best0. now rewrite length_map. }
  exists (map Z.to_nat (predictions_of n (row0 :: rest))). split.
  - split; [now rewrite length_map |].
    intros t Ht. destruct (Hpos t Ht) as (k & E & Hk).
    change 0%nat with (Z.to_nat 0) at 1. rewrite map_nth, E.
    now rewrite Nat2Z.id.
  - rewrite map_map. apply map_ext_in. intros x Hx.
    apply (In_nth _ _ 0) in Hx as (t & Ht & <-). rewrite Hlen in Ht.
    destruct (Hpos t Ht) as (k & -> & _). now rewrite Nat2Z.id.
Qed.

End Columns.

(** ** The loop over the batch *)

Section Loop.

Variables (T : nat) (blank_id : pyval).

Implicit Types (ex : list (list Q)) (batch : list (list (list Q)))
  (lens : list Q) (outs acc : list pyval).

Lemma decode_loop_all batch :
  forall lens acc,
    decode_loop T blank_id (combine (map (example_tensor T) batch) lens) acc
    = (outs <- decode_all T blank_id (combine batch lens) ;; Ok (acc ++ outs)).
Proof.
  induction batch as [| ex batch IH]; intros lens acc.
  - cbn. now rewrite app_nil_r.
  - destruct lens as [| l lens]; [cbn; now rewrite app_nil_r |].
    cbn [map combine decode_loop decode_all].
    rewrite decode_example_rows.
    destruct (decode_rows T blank_id ex l) as [out | e]; [| reflexivity].
    cbn [bind]. rewrite IH.
    destruct (decode_all T blank_id (combine batch lens)) as [outs | e];
      [| reflexivity].
    cbn [bind]. now rewrite <- app_assoc.
Qed.

Lemma ctc_greedy_decode_batch (V : nat) batch lens :
  ctc_greedy_decode (tensor_of_batch V T batch) lens blank_id
  = decode_all T blank_id (combine batch lens).
Proof.
  unfold ctc_greedy_decode, tensor_of_batch.
  cbn [shape shape_last last iter bind]. rewrite decode_loop_all.
  now destruct (decode_all T blank_id (combine batch lens)).
Qed.

Lemma decode_loop_length (pairs : list (tensor Q * Q)) :
  forall acc outs,
    decode_loop T blank_id pairs acc = Ok outs ->
    length outs = (length acc + length pairs)%nat.
Proof.
  induction pairs as [| [seq l] pairs IH]; intros acc outs H.
  - cbn in H. injection H as <-. cbn. lia.
  - cbn [decode_loop] in H.
    destruct (decode_example T blank_id seq l) as [out | e];
      [| discriminate H].
    cbn [bind] in H. apply IH in H. rewrite H, length_app. cbn [length]. lia.
Qed.

Lemma decode_loop_raises (pairs : list (tensor Q * Q)) seq (l : Q) acc :
  raises (decode_example T blank_id seq l) ->
  raises (decode_loop T blank_id ((seq, l) :: pairs) acc).
Proof.
  intros [e E]. exists e. cbn [decode_loop]. now rewrite E.
Qed.

(** The results of [decode_all], entry by entry. *)
Lemma decode_all_entries (pairs : list (list (list Q) * Q)) :
  forall outs,
    decode_all T blank_id pairs = Ok outs <->
    Forall2 (fun p out => decode_rows T blank_id (fst p) (snd p) = Ok out)
      pairs outs.
Proof.
  induction pairs as [| [ex l] pairs IH]; intros outs.
  - cbn. split.
    + intros H. injection H as <-. constructor.
    + intros H. now inversion H.
  - cbn [decode_all]. split.
    + intros H.
      destruct (decode_rows T blank_id ex l) as [out | e] eqn:E;
        [| discriminate H].
      cbn [bind] in H.
      destruct (decode_all T blank_id pairs) as [outs' | e];
        [| discriminate H].
      injection H as <-. constructor; [exact E | now apply IH].
    + intros H. inversion H as [| ? out ? outs' E Hrest]; subst.
      cbn [fst snd] in E. rewrite E. cbn [bind].
      apply IH in Hrest. now rewrite Hrest.
Qed.

Lemma decode_all_returns (pairs : list (list (list Q) * Q)) :
  Forall (fun p => exists out, decode_rows T blank_id (fst p) (snd p) = Ok out)
    pairs ->
  exists outs, decode_all T blank_id pairs = Ok outs.
Proof.
  induction 1 as [| [ex l] pairs [out E] _ [outs IH]].
  - now exists [].
  - exists (out :: outs). cbn [decode_all]. cbn [fst snd] in E.
    now rewrite E, IH.
Qed.

(** With every failure of an example being the same exception, one
    failing example makes the batch fail with it. *)
Lemma decode_all_raises (pairs : list (list (list Q) * Q)) (e : exn) :
  Forall (fun p => forall e', decode_rows T blank_id (fst p) (snd p)
                              = Raise e' -> e' = e) pairs ->
  Exists (fun p => decode_rows T blank_id (fst p) (snd p) = Raise e) pairs ->
  decode_all T blank_id pairs = Raise e.
Proof.
  intros Hall Hex. induction pairs as [| [ex l] pairs IH];
    [now inversion Hex |].
  apply Forall_cons_iff in Hall as [Hhd Hall]. cbn [fst snd] in Hhd.
  cbn [decode_all].
  destruct (decode_rows T blank_id ex l) as [out | e'] eqn:E.
  - cbn [bind]. inversion Hex as [? ? Hhere | ? ? Hlater]; subst.
    + cbn [fst snd] in Hhere. congruence.
    + now rewrite (IH Hall Hlater).
  - cbn [bind]. f_equal. now apply Hhd.
Qed.

Lemma decode_rows_retains ex (l : Q) (n : nat) :
  ex <> [] ->
  retains T l n ->
  decode_rows T blank_id ex l
  = Ok (PyList (filter_list (map PyInt (predictions_of n ex)) blank_id)).
Proof.
  intros Hex (Hn & HnT & HT). unfold decode_rows. rewrite Hn. cbn [bind].
  assert (Hfit : fits_int64 (Z.of_nat n) = true).
  { unfold fits_int64. apply andb_true_iff. split; apply Z.leb_le; lia. }
  rewrite Hfit. cbn [negb].
  destruct (Z.ltb_spec (Z.of_nat n) 0); [lia |].
  destruct (Z.ltb_spec (Z.of_nat T) (Z.of_nat n)); [lia |].
  cbn [orb]. rewrite Nat2Z.id. destruct ex; [congruence | reflexivity].
Qed.

Lemma decode_rows_out_of_range ex (l : Q) (n : Z) :
  actual_size_of T l = Ok n ->
  n < 0 \/ Z.of_nat T < n ->
  decode_rows T blank_id ex l
  = Raise (if fits_int64 n then RuntimeError else ValueError).
Proof.
  intros Hn H. unfold decode_rows. rewrite Hn. cbn [bind].
  destruct (fits_int64 n); cbn [negb]; [| reflexivity].
  destruct (Z.ltb_spec n 0); [reflexivity |].
  destruct (Z.ltb_spec (Z.of_nat T) n); [reflexivity | lia].
Qed.

Lemma decode_rows_no_count ex (l : Q) (e : exn) :
  actual_size_of T l = Raise e -> decode_rows T blank_id ex l = Raise e.
Proof.
  intros H. unfold decode_rows. now rewrite H.
Qed.

(** With a vocabulary and a frame count that fits [int64], the only
    exception of an example is the one of [narrow]. *)
Lemma decode_rows_raise ex (l : Q) (n : Z) (e : exn) :
  ex <> [] ->
  actual_size_of T l = Ok n ->
  fits_int64 n = true ->
  decode_rows T blank_id ex l = Raise e -> e = RuntimeError.
Proof.
  intros Hex Hn Hfit. unfold decode_rows. rewrite Hn. cbn [bind].
  rewrite Hfit. cbn [negb].
  destruct ((n <? 0) || (Z.of_nat T <? n)); [congruence |].
  destruct ex; [congruence | discriminate].
Qed.

Lemma decode_all_raises_some (pairs : list (list (list Q) * Q)) :
  Exists (fun p => raises (decode_rows T blank_id (fst p) (snd p))) pairs ->
  raises (decode_all T blank_id pairs).
Proof.
  induction 1 as [[ex l] pairs [e E] | [ex l] pairs _ [e IH]];
    cbn [decode_all fst snd] in *.
  - exists e. now rewrite E.
  - destruct (decode_rows T blank_id ex l) as [out | e'].
    + exists e. cbn [bind]. now rewrite IH.
    + now exists e'.
Qed.

End Loop.

(** ** Lists paired by [zip] *)

Section Zip.

Context {A B : Type}.

Implicit Types (l : list A) (m : list B).

Lemma nth_error_combine l :
  forall m (i : nat) (a : A) (b : B),
    nth_error l i = Some a -> nth_error m i = Some b ->
    nth_error (combine l m) i = Some (a, b).
Proof.
  induction l as [| x l IH]; intros [| y m] [| i] a b Ha Hb;
    cbn in *; try discriminate.
  - congruence.
  - now apply IH.
Qed.

Lemma combine_firstn_both l :
  forall m, combine (firstn (length m) l) (firstn (length l) m) = combine l m.
Proof.
  induction l as [| x l IH]; intros [| y m]; cbn; try reflexivity.
  now rewrite IH.
Qed.

Lemma in_combine_exists_l l :
  forall m (b : B),
    length m = length l -> In b m -> exists a, In (a, b) (combine l m).
Proof.
  induction l as [| x l IH]; intros [| y m] b Hlen Hin; cbn in *;
    try discriminate; try contradiction.
  destruct Hin as [-> | Hin].
  - exists x. now left.
  - destruct (IH m b) as [a Ha]; [lia | exact Hin |]. exists a. now right.
Qed.

Lemma Forall2_nth_error_l {C D : Type} (R : C -> D -> Prop)
  (l1 : list C) (l2 : list D) :
  Forall2 R l1 l2 ->
  forall (i : nat) (c : C),
    nth_error l1 i = Some c -> exists d, nth_error l2 i = Some d /\ R c d.
Proof.
  induction 1 as [| x y l1 l2 Hxy _ IH]; intros [| i] c Hc; cbn in *;
    try discriminate.
  - injection Hc as <-. now exists y.
  - now apply IH.
Qed.

End Zip.

(** ** Well-shaped batches *)

Section Batches.

Implicit Types (ex : list (list Q)) (batch : list (list (list Q)))
  (lens : list Q).

Lemma batch_shape_example (V T : nat) batch ex :
  (0 < V)%nat -> batch_shape V T batch -> In ex batch ->
  ex <> [] /\ Forall (fun row => length row = T) ex.
Proof.
  intros HV Hshape Hin. unfold batch_shape in Hshape.
  rewrite Forall_forall in Hshape. destruct (Hshape ex Hin) as [Hlen Hrows].
  split; [| exact Hrows]. intros ->. cbn in Hlen. lia.
Qed.

Lemma argmax_rows_nil (rows : list (list Q)) :
  forall i, argmax_rows i [] rows = [].
Proof.
  induction rows as [| row rows IH]; intros i; [reflexivity |].
  cbn [argmax_rows]. apply IH.
Qed.

Lemma predictions_of_zero ex : predictions_of 0 ex = [].
Proof.
  destruct ex as [| row0 rest]; [reflexivity |].
  cbn [predictions_of firstn map]. now rewrite argmax_rows_nil.
Qed.

End Batches.

(** ** Tensors of rank below three *)

Section LowRank.

Variables (T : nat) (blank_id : pyval).

Lemma shape_nil_scalar {A : Type} (t : tensor A) :
  shape t = [] -> exists x, t = Scalar x.
Proof.
  destruct t as [x | inner items]; [now exists x | discriminate].
Qed.

Lemma well_shaped_items {A : Type} (inner : list nat)
  (items : list (tensor A)) :
  well_shaped (Stack inner items) ->
  Forall (fun it => shape it = inner /\ well_shaped it) items.
Proof.
  cbn [well_shaped]. induction items as [| it items IH]; [constructor |].
  intros [Hit Hrest]. constructor; [exact Hit | now apply IH].
Qed.

Lemma max_reduce_scalars (es : list (tensor Q)) :
  Forall (fun e => shape e = []) es ->
  forall i b, exists b', max_reduce i (Scalar b) es = Scalar b'.
Proof.
  induction 1 as [| e es He _ IH]; intros i b; [now exists b |].
  destruct (shape_nil_scalar e He) as [x ->].
  cbn [max_reduce tzip]. apply IH.
Qed.

(** A 0-d example: [narrow] refuses it, unless the frame count has
    failed before. *)
Lemma decode_example_scalar (x l : Q) :
  raises (decode_example T blank_id (Scalar x) l).
Proof.
  unfold decode_example.
  destruct (actual_size_of T l) as [n | e]; [| now exists e].
  cbn [bind]. unfold narrow_last. cbn [shape].
  destruct (fits_int64 n); [now exists RuntimeError | now exists ValueError].
Qed.

(** A 1-d example: the predictions are a single index, which
    [filter_ctc_output] refuses, unless the frame count, [narrow] or
    [max] fail before. *)
Lemma decode_example_vector (elems : list (tensor Q)) (l : Q) :
  Forall (fun e => shape e = []) elems ->
  raises (decode_example T blank_id (Stack [] elems) l).
Proof.
  intros Hel. unfold decode_example.
  destruct (actual_size_of T l) as [n | e]; [| now exists e].
  cbn [bind]. unfold narrow_last.
  destruct (fits_int64 n); [| now exists ValueError].
  cbn [shape last].
  destruct (n <? 0); [now exists RuntimeError |].
  destruct (Z.of_nat (length elems) <? n); [now exists RuntimeError |].
  cbn [bind narrow_items].
  assert (Hfirst : Forall (fun e => shape e = []) (firstn (Z.to_nat n) elems))
    by (rewrite <- (firstn_skipn (Z.to_nat n) elems) in Hel;
        now apply Forall_app in Hel).
  destruct (firstn (Z.to_nat n) elems) as [| e0 es];
    [now exists IndexError |].
  apply Forall_cons_iff in Hfirst as [He0 Hes].
  destruct (shape_nil_scalar e0 He0) as [x ->].
  cbn [max_dim0 tmap].
  destruct (max_reduce_scalars es Hes 1 (x, 0)) as [b' ->].
  cbn [bind tmap tolist filter_ctc_output]. now exists ValueError.
Qed.

End LowRank.

Lemma ctc_greedy_decode_low_rank (blank_id : pyval) (p : tensor Q)
  (lens : list Q) :
  well_shaped p ->
  (length (shape p) < 3)%nat ->
  shape p = [] \/ ((0 < hd 0%nat (shape p))%nat /\ lens <> []) ->
  raises (ctc_greedy_decode p lens blank_id).
Proof.
  intros Hwf Hrank Hpairs. destruct p as [x | inner items].
  - now exists IndexError.
  - destruct Hpairs as [Hnil | [Hitems Hlens]]; [discriminate Hnil |].
    cbn [shape hd length] in Hitems, Hrank.
    destruct items as [| it items]; [cbn in Hitems; lia |].
    destruct lens as [| l lens]; [congruence |].
    apply well_shaped_items, Forall_cons_iff in Hwf as [[Hshape Hit] _].
    unfold ctc_greedy_decode. cbn [shape shape_last bind iter combine].
    apply decode_loop_raises.
    destruct inner as [| T' [| ? ?]]; [| | cbn in Hrank; lia].
    + destruct (shape_nil_scalar it Hshape) as [x ->].
      apply decode_example_scalar.
    + destruct it as [x | inner' elems]; [discriminate Hshape |].
      injection Hshape as _ ->.
      apply decode_example_vector.
      apply well_shaped_items in Hit. revert Hit. apply Forall_impl.
      now intros e [He _].
Qed.

(** ** Batches whose frame counts are in range *)

Section InRange.

Variables (V T : nat) (blank_id : pyval).

Implicit Types (ex : list (list Q)) (batch : list (list (list Q)))
  (lens : list Q).

Lemma decode_batch_in_range batch lens :
  (0 < V)%nat ->
  batch_shape V T batch ->
  Forall (fun l => exists n, retains T l n) lens ->
  exists outs,
    decode_all T blank_id (combine batch lens) = Ok outs /\
    length outs = Nat.min (length batch) (length lens) /\
    Forall2
      (fun p out =>
         out = PyList
                 (filter_list
                    (map PyInt (predictions_of (frames T (snd p)) (fst p)))
                    blank_id))
      (combine batch lens) outs.
Proof.
  intros HV Hshape Hlens. rewrite Forall_forall in Hlens.
  assert (Hpairs : forall p, In p (combine batch lens) ->
            decode_rows T blank_id (fst p) (snd p)
            = Ok (PyList
                    (filter_list
                       (map PyInt (predictions_of (frames T (snd p)) (fst p)))
                       blank_id))).
  { intros [ex l] Hin. cbn [fst snd].
    destruct (Hlens l) as [n Hn]; [now apply in_combine_r in Hin |].
    rewrite (frames_retains T l n Hn). apply decode_rows_retains.
    - apply (batch_shape_example V T batch ex HV Hshape).
      now apply in_combine_l in Hin.
    - exact Hn. }
  destruct (decode_all_returns T blank_id (combine batch lens)) as [outs E].
  { apply Forall_forall. intros p Hin. eexists. now apply Hpairs. }
  exists outs. split; [exact E |].
  apply decode_all_entries in E. split.
  - now rewrite <- (Forall2_length E), length_combine.
  - clear Hlens. induction E as [| p out pairs outs Hp _ IH];
      constructor.
    + rewrite Hpairs in Hp by now left. now injection Hp as <-.
    + apply IH. intros q Hq. apply Hpairs. now right.
Qed.

(** One frame count that fails or is out of range makes the batch
    fail. *)
Lemma decode_batch_out_of_range batch lens (l : Q) :
  length lens = length batch ->
  In l lens ->
  (exists e, actual_size_of T l = Raise e) \/
  (exists n, actual_size_of T l = Ok n /\ (n < 0 \/ Z.of_nat T < n)) ->
  raises (decode_all T blank_id (combine batch lens)).
Proof.
  intros Hlen Hin Hout. apply decode_all_raises_some, Exists_exists.
  destruct (in_combine_exists_l batch lens l Hlen Hin) as [ex Hex].
  exists (ex, l). split; [exact Hex |]. cbn [fst snd].
  destruct Hout as [[e E] | (n & E & Hn)].
  - exists e. now apply decode_rows_no_count.
  - eexists. now apply (decode_rows_out_of_range T blank_id ex l n).
Qed.

(** With a vocabulary and frame counts that all fit [int64], a failing
    batch fails with the exception of [narrow]. *)
Lemma decode_batch_narrow_error batch lens (l : Q) (n : Z) :
  (0 < V)%nat ->
  batch_shape V T batch ->
  length lens = length batch ->
  Forall (fun l' => exists n', actual_size_of T l' = Ok n' /\
                               fits_int64 n' = true) lens ->
  In l lens ->
  actual_size_of T l = Ok n ->
  n < 0 \/ Z.of_nat T < n ->
  decode_all T blank_id (combine batch lens) = Raise RuntimeError.
Proof.
  intros HV Hshape Hlen Hfit Hin Hn Hout. rewrite Forall_forall in Hfit.
  apply decode_all_raises.
  - apply Forall_forall. intros [ex l'] Hp e. cbn [fst snd].
    destruct (Hfit l') as (n' & Hn' & Hf'); [now apply in_combine_r in Hp |].
    apply (decode_rows_raise T blank_id ex l' n'); try assumption.
    apply (batch_shape_example V T batch ex HV Hshape).
    now apply in_combine_l in Hp.
  - apply Exists_exists.
    destruct (in_combine_exists_l batch lens l Hlen Hin) as [ex Hex].
    exists (ex, l). split; [exact Hex |]. cbn [fst snd].
    rewrite (decode_rows_out_of_range T blank_id ex l n Hn Hout).
    destruct (Hfit l Hin) as (n' & Hn' & Hf').
    rewrite Hn in Hn'. injection Hn' as <-. now rewrite Hf'.
Qed.

End InRange.

(** ** Properties of [ctc_greedy_decode] *)

(** C1, as the code has it. An empty batch decodes to the empty list.
    For a score batch of shape (B, V, T) with a vocabulary that is not
    empty and a length vector of B relative lengths whose frame counts
    lie within [[0, T]], the call returns exactly B lists in batch
    order; entry [i] is [filter_ctc_output], with the given blank, of
    the sequence that holds, for each of the first [n] time steps of
    example [i], the lowest vocabulary index of maximal score, [n] being
    the frame count of the example. The frame count is the integer
    nearest to the float32 product [relative_length * T], a half going
    to the even neighbour: for the float32 nearest to 0.1 and T = 5 the
    product is 0.5 and no frame is retained, for the float32 nearest to
    0.7 and T = 5 it is 3.5 and four frames are retained, and the
    relative length 1 retains both frames of T = 2. *)
Theorem ctc_greedy_decode_argmax :
  (forall (V T : nat) (lens : list Q) (blank_id : pyval),
     ctc_greedy_decode (tensor_of_batch V T []) lens blank_id = Ok []) /\
  (forall (V T : nat) (batch : list (list (list Q))) (lens : list Q)
          (blank_id : pyval),
     (0 < V)%nat ->
     batch_shape V T batch ->
     length lens = length batch ->
     Forall (fun l => exists n, retains T l n) lens ->
     exists outs,
       ctc_greedy_decode (tensor_of_batch V T batch) lens blank_id = Ok outs /\
       length outs = length batch /\
       forall (i : nat) (ex : list (list Q)) (l : Q),
         nth_error batch i = Some ex ->
         nth_error lens i = Some l ->
         exists dense out,
           dense_argmax ex (frames T l) dense /\
           nth_error outs i = Some out /\
           filter_ctc_output (ints dense) blank_id = Ok out) /\
  (forall (T : nat) (l : Q) (n : Z),
     actual_size_of T l = Ok n <->
     exists p, mul_int l T = F32 p /\ n = round_int p) /\
  mul_int f32_tenth 5 = F32 (1 # 2) /\
  actual_size_of 5 f32_tenth = Ok 0 /\
  mul_int f32_seven_tenths 5 = F32 (7 # 2) /\
  actual_size_of 5 f32_seven_tenths = Ok 4 /\
  actual_size_of 2 1 = Ok 2.
Proof.
  split; [reflexivity |]. split.
  2:{ split; [| repeat split; vm_compute; reflexivity].
      intros T l n. split; [apply actual_size_of_ok |].
      intros (p & Hp & ->). now apply actual_size_of_finite. }
  intros V T batch lens blank_id HV Hshape Hlen Hlens.
  rewrite ctc_greedy_decode_batch.
  destruct (decode_batch_in_range V T blank_id batch lens HV Hshape Hlens)
    as (outs & E & Hlouts & Hall).
  exists outs. split; [exact E |]. split; [lia |].
  intros i ex l Hex Hl.
  destruct (Forall2_nth_error_l _ _ _ Hall i (ex, l)) as (out & Hout & ->).
  { now apply nth_error_combine. }
  cbn [fst snd] in *.
  destruct (batch_shape_example V T batch ex HV Hshape) as [Hne Hrows].
  { now apply nth_error_In with i. }
  rewrite Forall_forall in Hlens.
  destruct (Hlens l (nth_error_In _ _ Hl)) as (n & Hn).
  rewrite (frames_retains T l n Hn) in *.
  destruct (predictions_of_dense T n ex)
    as (dense & Hdense & Hmap); try assumption.
  { apply Hn. }
  exists dense. eexists. split; [exact Hdense |]. split; [exact Hout |].
  unfold ints. cbn [filter_ctc_output]. now rewrite Hmap.
Qed.

(** Five frames under the float32 nearest to 0.7: four are decoded. *)
Lemma ctc_greedy_decode_argmax_witness :
  exists outs,
    ctc_greedy_decode (tensor_of_batch 2 5 five_frames) [f32_seven_tenths]
      (PyInt 5)
    = Ok outs /\
    length outs = 1%nat /\
    outs = [PyList [PyInt 1; PyInt 0; PyInt 1; PyInt 0]].
Proof.
  destruct (proj1 (proj2 ctc_greedy_decode_argmax) 2%nat 5%nat five_frames
              [f32_seven_tenths] (PyInt 5)) as (outs & E & Hlen & _).
  - lia.
  - repeat constructor.
  - reflexivity.
  - repeat constructor. exists 4%nat. split; [| split].
    + vm_compute. reflexivity.
    + lia.
    + vm_compute. discriminate.
  - exists outs. split; [exact E |]. split; [exact Hlen |].
    assert (E' : ctc_greedy_decode (tensor_of_batch 2 5 five_frames)
                   [f32_seven_tenths] (PyInt 5)
                 = Ok [PyList [PyInt 1; PyInt 0; PyInt 1; PyInt 0]])
      by (vm_compute; reflexivity).
    congruence.
Defined.

(** C1 as stated fails: it is not for every batch and every length
    vector that the call returns. A relative length of 2 on one frame
    asks for two frames and [narrow] raises; a batch with an empty
    vocabulary has no maximum to take and [max] raises. *)
Lemma decode_not_for_every_input :
  shape unit_probs = [1; 1; 1]%nat /\
  ctc_greedy_decode unit_probs [2%Q] (PyInt 0) = Raise RuntimeError /\
  shape (tensor_of_batch 0 1 [ [] ]) = [1; 0; 1]%nat /\
  ctc_greedy_decode (tensor_of_batch 0 1 [ [] ]) [1%Q] (PyInt 0)
  = Raise IndexError.
Proof.
  repeat split; vm_compute; reflexivity.
Qed.

(** C5, as the code has it. [ctc_greedy_decode] checks no shape. A
    length vector whose size differs from B is not rejected: examples
    and lengths are paired up to the shorter of the two, so the call
    equals the call on the first [min(B, size)] examples and lengths, and
    a call that returns, returns as many lists as the first dimension
    and the length vector have in common. A well-shaped score tensor of
    rank 0 raises, and one of rank 1 or 2 raises as soon as one example
    is paired with a length, through the operations applied to it. A
    call that raises returns no list. *)
Theorem decode_pairs_up_to_shorter :
  (forall (V T : nat) (batch : list (list (list Q))) (lens : list Q)
          (blank_id : pyval),
     ctc_greedy_decode (tensor_of_batch V T batch) lens blank_id
     = ctc_greedy_decode
         (tensor_of_batch V T (firstn (length lens) batch))
         (firstn (length batch) lens) blank_id) /\
  (forall (p : tensor Q) (lens : list Q) (blank_id : pyval)
          (outs : list pyval),
     ctc_greedy_decode p lens blank_id = Ok outs ->
     length outs = Nat.min (hd 0%nat (shape p)) (length lens)) /\
  (forall (p : tensor Q) (lens : list Q) (blank_id : pyval),
     well_shaped p ->
     (length (shape p) < 3)%nat ->
     shape p = [] \/ ((0 < hd 0%nat (shape p))%nat /\ lens <> []) ->
     raises (ctc_greedy_decode p lens blank_id)) /\
  (forall (p : tensor Q) (lens : list Q) (blank_id : pyval),
     raises (ctc_greedy_decode p lens blank_id) ->
     forall outs, ctc_greedy_decode p lens blank_id <> Ok outs).
Proof.
  repeat split.
  - intros V T batch lens blank_id. rewrite !ctc_greedy_decode_batch.
    now rewrite combine_firstn_both.
  - intros p lens blank_id outs H. destruct p as [x | inner items];
      [discriminate H |].
    unfold ctc_greedy_decode in H. cbn [shape shape_last bind iter] in H.
    apply decode_loop_length in H. rewrite length_combine in H.
    cbn [shape hd]. cbn [length] in H. lia.
  - intros p lens blank_id. apply ctc_greedy_decode_low_rank.
  - intros p lens blank_id [e E] outs. rewrite E. discriminate.
Qed.

Lemma decode_pairs_up_to_shorter_witness :
  ctc_greedy_decode doc_probs [1%Q] (PyInt 0) = Ok [PyList [PyInt 1]] /\
  length [PyList [PyInt 1]]
  = Nat.min (hd 0%nat (shape doc_probs)) (length [1%Q]) /\
  raises (ctc_greedy_decode rank2_probs [1%Q] (PyInt 0)).
Proof.
  assert (E : ctc_greedy_decode doc_probs [1%Q] (PyInt 0)
              = Ok [PyList [PyInt 1]]) by (vm_compute; reflexivity).
  split; [exact E |]. split.
  - exact (proj1 (proj2 decode_pairs_up_to_shorter) doc_probs [1%Q] (PyInt 0)
             [PyList [PyInt 1]] E).
  - apply (proj1 (proj2 (proj2 decode_pairs_up_to_shorter))).
    + cbn. repeat split.
    + cbn. lia.
    + right. split; [cbn; lia | discriminate].
Defined.

(** C5 as stated fails: a batch of two examples with a length vector of
    one element is decoded to one list, without an error, and a tensor
    of rank 4 is decoded to nested lists, without an error. *)
Lemma shape_mismatch_not_rejected :
  shape doc_probs = [2; 2; 2]%nat /\
  length [1%Q] = 1%nat /\
  ctc_greedy_decode doc_probs [1%Q] (PyInt 0) = Ok [PyList [PyInt 1]] /\
  ~ raises (ctc_greedy_decode doc_probs [1%Q] (PyInt 0)) /\
  shape rank4_probs = [1; 2; 2; 2]%nat /\
  ctc_greedy_decode rank4_probs [1%Q] (PyInt 0)
  = Ok [PyList [PyList [PyInt 0; PyInt 1]; PyList [PyInt 1; PyInt 1]]] /\
  ~ raises (ctc_greedy_decode rank4_probs [1%Q] (PyInt 0)).
Proof.
  repeat split; try (vm_compute; reflexivity);
    intros [e E]; vm_compute in E; discriminate E.
Qed.

(** C6, as the code has it. [ctc_greedy_decode] does not check the
    relative lengths. The relative length 0 has the frame count 0, and a
    negative relative length has a frame count that is 0 or negative,
    unless its float32 product is infinite and the count fails with an
    [OverflowError]. On a batch of shape (B, V, T) with a vocabulary and
    B relative lengths: a negative frame count makes the call raise,
    with the [RuntimeError] of [narrow] when every frame count fits
    [int64]; and when every frame count lies within [[0, T]] the call
    returns, the entry of every example with the frame count 0 being
    the empty list. *)
Theorem decode_nonpositive_length (V T : nat)
  (batch : list (list (list Q))) (lens : list Q) (blank_id : pyval) :
  (0 < V)%nat ->
  batch_shape V T batch ->
  length lens = length batch ->
  (forall l, (l == 0)%Q -> actual_size_of T l = Ok 0) /\
  (forall l, (l <= 0)%Q ->
     actual_size_of T l = Raise OverflowError \/
     exists n, actual_size_of T l = Ok n /\ n <= 0) /\
  ((exists l n, In l lens /\ actual_size_of T l = Ok n /\ n < 0) ->
   raises (ctc_greedy_decode (tensor_of_batch V T batch) lens blank_id) /\
   (Forall (fun l' => exists n', actual_size_of T l' = Ok n' /\
                                 fits_int64 n' = true) lens ->
    ctc_greedy_decode (tensor_of_batch V T batch) lens blank_id
    = Raise RuntimeError)) /\
  (Forall (fun l => exists n, retains T l n) lens ->
   exists outs,
     ctc_greedy_decode (tensor_of_batch V T batch) lens blank_id = Ok outs /\
     length outs = length batch /\
     forall (i : nat) (l : Q),
       nth_error lens i = Some l -> frames T l = 0%nat ->
       nth_error outs i = Some (PyList [])).
Proof.
  intros HV Hshape Hlen. rewrite ctc_greedy_decode_batch.
  split; [| split; [| split]].
  - intros l. apply actual_size_of_zero.
  - intros l Hl. destruct (actual_size_of T l) as [n | e] eqn:E.
    + right. exists n. split; [reflexivity |].
      now apply (actual_size_of_nonpos T l).
    + left. f_equal. now apply (actual_size_of_raise T l).
  - intros (l & n & Hin & Hn & Hneg). split.
    + apply (decode_batch_out_of_range T blank_id batch lens l);
        try assumption.
      right. exists n. split; [exact Hn | now left].
    + intros Hfit.
      apply (decode_batch_narrow_error V T blank_id batch lens l n);
        try assumption.
      now left.
  - intros Hlens.
    destruct (decode_batch_in_range V T blank_id batch lens HV Hshape Hlens)
      as (outs & E & Hlouts & Hall).
    exists outs. split; [exact E |]. split; [lia |].
    intros i l Hl Hzero.
    destruct (nth_error batch i) as [ex |] eqn:Hex.
    + destruct (Forall2_nth_error_l _ _ _ Hall i (ex, l))
        as (out & Hout & ->).
      { now apply nth_error_combine. }
      cbn [fst snd] in Hout. rewrite Hzero in Hout.
      now rewrite predictions_of_zero in Hout.
    + apply nth_error_None in Hex.
      assert (Hi : (i < length lens)%nat)
        by (apply nth_error_Some; congruence).
      lia.
Qed.

Lemma decode_nonpositive_length_witness :
  ctc_greedy_decode doc_probs [(-1 # 1)%Q; 1%Q] (PyInt 0)
  = Raise RuntimeError /\
  exists outs,
    ctc_greedy_decode doc_probs [0%Q; 1%Q] (PyInt 0) = Ok outs /\
    nth_error outs 0 = Some (PyList []).
Proof.
  assert (HV : (0 < 2)%nat) by lia.
  assert (Hshape : batch_shape 2 2 doc_scores) by (repeat constructor).
  split.
  - apply (proj1 (proj2 (proj2 (decode_nonpositive_length 2 2 doc_scores
                    [(-1 # 1)%Q; 1%Q] (PyInt 0) HV Hshape eq_refl)))).
    + exists (-1 # 1)%Q, (-2). split; [now left |].
      split; [vm_compute; reflexivity | lia].
    + repeat constructor.
      * exists (-2). split; vm_compute; reflexivity.
      * exists 2. split; vm_compute; reflexivity.
  - destruct (proj2 (proj2 (proj2 (decode_nonpositive_length 2 2 doc_scores
                       [0%Q; 1%Q] (PyInt 0) HV Hshape eq_refl))))
      as (outs & E & _ & Hzero).
    + repeat constructor.
      * exists 0%nat. split; [vm_compute; reflexivity |].
        split; [lia | vm_compute; discriminate].
      * exists 2%nat. split; [vm_compute; reflexivity |].
        split; [lia | vm_compute; discriminate].
    + exists outs. split; [exact E |].
      apply (Hzero 0%nat 0%Q eq_refl). vm_compute. reflexivity.
Defined.

(** C6 as stated fails: a relative length of exactly 0, and the negative
    relative length [-1/2] on one frame, give an empty sequence and no
    error. *)
Lemma zero_length_not_rejected :
  ctc_greedy_decode unit_probs [0%Q] (PyInt 0) = Ok [PyList []] /\
  ~ raises (ctc_greedy_decode unit_probs [0%Q] (PyInt 0)) /\
  ctc_greedy_decode unit_probs [(-1 # 2)%Q] (PyInt 0) = Ok [PyList []] /\
  ~ raises (ctc_greedy_decode unit_probs [(-1 # 2)%Q] (PyInt 0)).
Proof.
  repeat split; try (vm_compute; reflexivity);
    intros [e E]; vm_compute in E; discriminate E.
Qed.

(** ** The documented examples *)

Example filter_ctc_output_docstring :
  filter_ctc_output
    (PyList [PyStr "a"; PyStr "a"; PyStr "blank"; PyStr "b"; PyStr "b";
             PyStr "blank"; PyStr "c"]) (PyStr "blank")
  = Ok (PyList [PyStr "a"; PyStr "b"; PyStr "c"]).
Proof. reflexivity. Qed.

Example filter_ctc_output_empty :
  filter_ctc_output (PyList []) (PyInt 0) = Ok (PyList []).
Proof. reflexivity. Qed.

Example filter_ctc_output_single :
  filter_ctc_output (PyList [PyStr "x"]) (PyStr "blank")
  = Ok (PyList [PyStr "x"]).
Proof. reflexivity. Qed.

Example filter_ctc_output_tuple :
  filter_ctc_output (PyTuple [PyStr "a"; PyStr "a"]) (PyStr "blank")
  = Raise ValueError.
Proof. reflexivity. Qed.

Example ctc_greedy_decode_docstring :
  ctc_greedy_decode doc_probs doc_lens (PyInt 0)
  = Ok [PyList [PyInt 1]; PyList [PyInt 1]].
Proof. vm_compute. reflexivity. Qed.

Example round_int_halves :
  map round_int [1 # 2; 3 # 2; 5 # 2; -1 # 2; -3 # 2; 102 # 100]%Q
  = [0; 2; 2; 0; -2; 1].
Proof. reflexivity. Qed.

(** ** Further facts on the passes of [filter_ctc_output] *)

Section MorePasses.

Implicit Types (l m pre post : list pyval) (x y prev b : pyval).

Lemma subsequence_length s l : subsequence s l -> (length s <= length l)%nat.
Proof.
  induction 1; cbn [length]; lia.
Qed.

Lemma filter_collapse_from_subsequence b l :
  forall prev, subsequence (filter_blank b (collapse_from prev l)) l.
Proof.
  unfold filter_blank. induction l as [| x l IH]; intros prev;
    [constructor |].
  cbn [collapse_from]. destruct (py_ne x prev); cbn [filter].
  - destruct (py_ne x b); constructor; apply IH.
  - constructor. apply IH.
Qed.

Lemma filter_list_subsequence l b : subsequence (filter_list l b) l.
Proof.
  rewrite filter_list_collapse. destruct l as [| x l]; [constructor |].
  cbn [collapse]. unfold filter_blank. cbn [filter].
  destruct (py_ne x b); constructor;
    apply (filter_collapse_from_subsequence b l x).
Qed.

Lemma in_collapse_from prev l x :
  In x l -> x = prev \/ In x (collapse_from prev l).
Proof.
  revert prev. induction l as [| y l IH]; intros prev; [easy |].
  cbn [collapse_from]. intros [-> | Hin].
  - destruct (py_ne x prev) eqn:E; [right; now left |].
    left. now apply py_ne_false_iff.
  - destruct (IH y Hin) as [-> | H].
    + destruct (py_ne y prev) eqn:E; [right; now left |].
      left. now apply py_ne_false_iff.
    + right. destruct (py_ne y prev); [now right | exact H].
Qed.

Lemma in_collapse_iff l x : In x (collapse l) <-> In x l.
Proof.
  split; [apply collapse_incl |].
  destruct l as [| y l]; [easy |]. cbn [collapse].
  intros [-> | Hin]; [now left |].
  destruct (in_collapse_from y l x Hin) as [-> | H]; [now left | now right].
Qed.

Lemma in_filter_list_iff l b x :
  In x (filter_list l b) <-> In x l /\ x <> b.
Proof.
  rewrite filter_list_collapse. unfold filter_blank.
  rewrite filter_In, in_collapse_iff, py_ne_true_iff. reflexivity.
Qed.

(** An element said twice in a row counts once. *)
Lemma collapse_from_repeat pre x post :
  forall prev,
    collapse_from prev (pre ++ x :: x :: post)
    = collapse_from prev (pre ++ x :: post).
Proof.
  induction pre as [| y pre IH]; intros prev.
  - cbn [app collapse_from].
    assert (E : py_ne x x = false) by now apply py_ne_false_iff.
    now rewrite E.
  - cbn [app collapse_from]. now rewrite IH.
Qed.

Lemma collapse_repeat pre x post :
  collapse (pre ++ x :: x :: post) = collapse (pre ++ x :: post).
Proof.
  destruct pre as [| y pre].
  - cbn [app collapse collapse_from].
    assert (E : py_ne x x = false) by now apply py_ne_false_iff.
    now rewrite E.
  - cbn [app collapse]. now rewrite collapse_from_repeat.
Qed.

(** After a blank, the merge starts afresh. *)
Lemma filter_collapse_from_blank b l :
  filter_blank b (collapse_from b l) = filter_blank b (collapse l).
Proof.
  destruct l as [| x l]; [reflexivity |].
  cbn [collapse_from collapse]. unfold filter_blank.
  destruct (py_ne x b) eqn:E; cbn [filter]; now rewrite E.
Qed.

Lemma filter_collapse_from_app b l1 l2 :
  forall prev,
    filter_blank b (collapse_from prev (l1 ++ b :: l2))
    = filter_blank b (collapse_from prev l1) ++ filter_blank b (collapse l2).
Proof.
  assert (Eb : py_ne b b = false) by now apply py_ne_false_iff.
  induction l1 as [| x l1 IH]; intros prev.
  - cbn [app collapse_from]. rewrite <- filter_collapse_from_blank.
    unfold filter_blank. destruct (py_ne b prev); cbn [filter];
      now rewrite ?Eb.
  - cbn [app collapse_from]. specialize (IH x). unfold filter_blank in *.
    destruct (py_ne x prev); cbn [filter]; [| exact IH].
    destruct (py_ne x b); [| exact IH].
    cbn [app]. now rewrite IH.
Qed.

Lemma filter_list_app_blank l1 l2 b :
  filter_list (l1 ++ b :: l2) b = filter_list l1 b ++ filter_list l2 b.
Proof.
  rewrite !filter_list_collapse. destruct l1 as [| x l1].
  - cbn [app collapse]. rewrite <- filter_collapse_from_blank.
    unfold filter_blank. cbn [filter].
    assert (Eb : py_ne b b = false) by now apply py_ne_false_iff.
    now rewrite Eb.
  - cbn [app collapse].
    assert (H := filter_collapse_from_app b l1 l2 x).
    unfold filter_blank in *. cbn [filter].
    destruct (py_ne x b); [cbn [app] |]; now rewrite H.
Qed.

Lemma groupby_from_collapse_from l :
  forall prev, groupby_from prev l = collapse_from prev l.
Proof.
  induction l as [| x l IH]; intros prev; [reflexivity |].
  cbn [groupby_from collapse_from]. unfold py_ne.
  destruct (py_eq prev x) eqn:E.
  - apply py_eq_true_iff in E. subst x. rewrite py_eq_refl. cbn [negb].
    apply IH.
  - assert (E' : py_eq x prev = false).
    { apply py_eq_false_iff. apply py_eq_false_iff in E. congruence. }
    rewrite E'. cbn [negb]. now rewrite IH.
Qed.

Lemma groupby_keys_collapse l : groupby_keys l = collapse l.
Proof.
  destruct l as [| x l]; [reflexivity |].
  cbn [groupby_keys collapse]. now rewrite groupby_from_collapse_from.
Qed.

End MorePasses.

(** ** Relabelling the symbols *)

Section Relabel.

Variable f : pyval -> pyval.
Hypothesis f_injective : forall x y, f x = f y -> x = y.

Lemma py_ne_relabel (x y : pyval) : py_ne (f x) (f y) = py_ne x y.
Proof.
  destruct (py_ne x y) eqn:E.
  - apply py_ne_true_iff. apply py_ne_true_iff in E. intros H.
    now apply E, f_injective.
  - apply py_ne_false_iff. apply py_ne_false_iff in E. now subst.
Qed.

Lemma collapse_from_relabel (l : list pyval) :
  forall prev,
    collapse_from (f prev) (map f l) = map f (collapse_from prev l).
Proof.
  induction l as [| x l IH]; intros prev; [reflexivity |].
  cbn [map collapse_from]. rewrite py_ne_relabel.
  destruct (py_ne x prev); cbn [map]; now rewrite IH.
Qed.

Lemma filter_blank_relabel (b : pyval) (l : list pyval) :
  filter_blank (f b) (map f l) = map f (filter_blank b l).
Proof.
  unfold filter_blank. induction l as [| x l IH]; [reflexivity |].
  cbn [map filter]. rewrite py_ne_relabel.
  destruct (py_ne x b); cbn [map]; now rewrite IH.
Qed.

Lemma filter_list_relabel (l : list pyval) (b : pyval) :
  filter_list (map f l) (f b) = map f (filter_list l b).
Proof.
  rewrite !filter_list_collapse, <- filter_blank_relabel. f_equal.
  destruct l as [| x l]; [reflexivity |].
  cbn [map collapse]. now rewrite collapse_from_relabel.
Qed.

End Relabel.

(** ** Merging comes before the removal of blanks *)

Lemma collapse_from_run (a : pyval) (n : nat) :
  collapse_from a (repeat a n) = [].
Proof.
  induction n as [| n IH]; [reflexivity |].
  cbn [repeat collapse_from].
  assert (E : py_ne a a = false) by now apply py_ne_false_iff.
  now rewrite E.
Qed.

Lemma filter_list_run (a b : pyval) (n : nat) :
  a <> b -> filter_list (repeat a (S n)) b = [a].
Proof.
  intros H. rewrite filter_list_collapse.
  cbn [repeat collapse]. rewrite collapse_from_run.
  unfold filter_blank. cbn [filter].
  assert (E : py_ne a b = true) by now apply py_ne_true_iff.
  now rewrite E.
Qed.

(** C2. [filter_ctc_output] merges adjacent duplicates first and removes
    the blanks from the merged list: its output is the blank filter of
    the merge of the input. A run of a symbol comes out as one symbol;
    two runs of the same symbol with a blank between them come out as
    two symbols, the blank keeping them apart: for
    [['a', 'blank', 'a']] with the blank ['blank'] the result is
    [['a', 'a']]. In the other order, blanks first, the two would have
    merged into one. *)
Theorem blank_separates_repeats :
  (forall (l : list pyval) (blank : pyval),
     filter_ctc_output (PyList l) blank
     = Ok (PyList (filter_blank blank (collapse l)))) /\
  (forall (a blank : pyval) (n : nat),
     a <> blank ->
     filter_ctc_output (PyList (repeat a (S n))) blank = Ok (PyList [a])) /\
  (forall (a blank : pyval) (n m : nat),
     a <> blank ->
     filter_ctc_output
       (PyList (repeat a (S n) ++ blank :: repeat a (S m))) blank
     = Ok (PyList [a; a])) /\
  (forall a blank : pyval,
     a <> blank ->
     filter_ctc_output (PyList [a; blank; a]) blank = Ok (PyList [a; a]) /\
     collapse (filter_blank blank [a; blank; a]) = [a]) /\
  filter_ctc_output (PyList [PyStr "a"; PyStr "blank"; PyStr "a"])
    (PyStr "blank")
  = Ok (PyList [PyStr "a"; PyStr "a"]).
Proof.
  split; [| split; [| split; [| split]]].
  - intros l blank. cbn [filter_ctc_output]. now rewrite filter_list_collapse.
  - intros a blank n H. cbn [filter_ctc_output].
    now rewrite filter_list_run.
  - intros a blank n m H. cbn [filter_ctc_output].
    now rewrite filter_list_app_blank, !filter_list_run.
  - intros a blank H. split.
    + cbn [filter_ctc_output].
      change [a; blank; a] with (repeat a 1 ++ blank :: repeat a 1).
      now rewrite filter_list_app_blank, !filter_list_run.
    + unfold filter_blank. cbn [filter].
      assert (E1 : py_ne a blank = true) by now apply py_ne_true_iff.
      assert (E2 : py_ne blank blank = false) by now apply py_ne_false_iff.
      assert (E3 : py_ne a a = false) by now apply py_ne_false_iff.
      rewrite E1, E2. cbn [collapse collapse_from]. now rewrite E3.
  - reflexivity.
Qed.

Lemma blank_separates_repeats_witness :
  PyInt 7 <> PyInt 0 /\
  filter_ctc_output
    (PyList [PyInt 7; PyInt 7; PyInt 7; PyInt 0; PyInt 7; PyInt 7]) (PyInt 0)
  = Ok (PyList [PyInt 7; PyInt 7]).
Proof.
  split; [discriminate |].
  apply (proj1 (proj2 (proj2 blank_separates_repeats))
           (PyInt 7) (PyInt 0) 2%nat 1%nat).
  discriminate.
Defined.

(** ** Further properties of [filter_ctc_output] *)

(** X1. The output of [filter_ctc_output] on a list is the input with
    some elements left out, in the order of the input, and so is never
    longer than the input. *)
Theorem filter_output_subsequence (l : list pyval) (b : pyval) :
  exists out,
    filter_ctc_output (PyList l) b = Ok (PyList out) /\
    subsequence out l /\
    (length out <= length l)%nat.
Proof.
  exists (filter_list l b). split; [reflexivity |].
  assert (H := filter_list_subsequence l b).
  split; [exact H | now apply subsequence_length].
Qed.

(** X2. The symbols of the output are the symbols of the input other
    than the blank: no symbol is lost by the merge, and none appears. *)
Theorem filter_output_symbols (l : list pyval) (b : pyval) :
  exists out,
    filter_ctc_output (PyList l) b = Ok (PyList out) /\
    forall x, In x out <-> In x l /\ x <> b.
Proof.
  exists (filter_list l b). split; [reflexivity |].
  intros x. apply in_filter_list_iff.
Qed.

(** X3. The output is the empty list exactly when every element of the
    input is the blank, the empty input included. *)
Theorem filter_output_empty_iff (l : list pyval) (b : pyval) :
  filter_ctc_output (PyList l) b = Ok (PyList [])
  <-> Forall (fun x => x = b) l.
Proof.
  cbn [filter_ctc_output]. split.
  - intros E. injection E as E. apply Forall_forall. intros x Hx.
    destruct (pyval_eq_dec x b) as [Hb | Hb]; [exact Hb |].
    assert (Hin : In x (filter_list l b)) by now apply in_filter_list_iff.
    rewrite E in Hin. contradiction.
  - intros H. rewrite Forall_forall in H. do 2 f_equal.
    destruct (filter_list l b) as [| x out] eqn:E; [reflexivity |].
    assert (Hin : In x (filter_list l b)) by (rewrite E; now left).
    apply in_filter_list_iff in Hin as [Hin Hb]. now apply H in Hin.
Qed.

(** X4. Saying a symbol once more right after itself, anywhere in the
    input, does not change the output. *)
Theorem filter_repeat_invariant (pre post : list pyval) (x b : pyval) :
  filter_ctc_output (PyList (pre ++ x :: x :: post)) b
  = filter_ctc_output (PyList (pre ++ x :: post)) b.
Proof.
  cbn [filter_ctc_output]. do 2 f_equal.
  now rewrite !filter_list_collapse, collapse_repeat.
Qed.

(** X5. A blank splits the input: the output for [l1 ++ [b] ++ l2] is
    the output for [l1] followed by the output for [l2]. In particular a
    blank at either end of the input changes nothing. *)
Theorem filter_blank_splits (l1 l2 : list pyval) (b : pyval) :
  exists out1 out2,
    filter_ctc_output (PyList l1) b = Ok (PyList out1) /\
    filter_ctc_output (PyList l2) b = Ok (PyList out2) /\
    filter_ctc_output (PyList (l1 ++ b :: l2)) b = Ok (PyList (out1 ++ out2)) /\
    filter_ctc_output (PyList (b :: l2)) b = Ok (PyList out2) /\
    filter_ctc_output (PyList (l1 ++ [b])) b = Ok (PyList out1).
Proof.
  exists (filter_list l1 b), (filter_list l2 b).
  cbn [filter_ctc_output]. repeat split.
  - now rewrite filter_list_app_blank.
  - change (b :: l2) with ([] ++ b :: l2).
    now rewrite (filter_list_app_blank [] l2 b).
  - rewrite (filter_list_app_blank l1 [] b).
    change (filter_list [] b) with (@nil pyval). now rewrite app_nil_r.
Qed.

(** X6. [filter_ctc_output] returns its input unchanged exactly when the
    input has no two equal neighbours and holds no blank. *)
Theorem filter_fixed_point_iff (l : list pyval) (b : pyval) :
  filter_ctc_output (PyList l) b = Ok (PyList l)
  <-> no_adjacent_dup l /\ ~ In b l.
Proof.
  cbn [filter_ctc_output]. split.
  - intros E. injection E as E.
    assert (Hb : ~ In b l) by (rewrite <- E; apply filter_list_not_in).
    split; [| exact Hb].
    apply collapse_fixed_iff. now rewrite <- (filter_list_no_blank l b Hb).
  - intros [Hnd Hb]. do 2 f_equal.
    rewrite (filter_list_no_blank l b Hb). now apply collapse_fixed_iff.
Qed.

(** X7. The first two passes are the same function: on every list the
    [groupby] pass of line 50 returns what the comprehension of line 43
    returns. *)
Theorem groupby_pass_is_first_pass (l : list pyval) :
  remove_duplicates l = filter_repetitions l.
Proof.
  unfold remove_duplicates.
  now rewrite groupby_keys_collapse, filter_repetitions_collapse.
Qed.

(** X8. Renaming the symbols by a one-to-one map commutes with
    [filter_ctc_output]: the output for the renamed input and the
    renamed blank is the renamed output. *)
Theorem filter_relabel (f : pyval -> pyval) (l : list pyval) (b : pyval) :
  (forall x y, f x = f y -> x = y) ->
  exists out,
    filter_ctc_output (PyList l) b = Ok (PyList out) /\
    filter_ctc_output (PyList (map f l)) (f b) = Ok (PyList (map f out)).
Proof.
  intros Hf. exists (filter_list l b). split; [reflexivity |].
  cbn [filter_ctc_output]. now rewrite filter_list_relabel.
Qed.

Lemma filter_relabel_witness :
  exists out,
    filter_ctc_output (PyList [PyInt 1; PyInt 1; PyInt 0; PyInt 2]) (PyInt 0)
    = Ok (PyList out) /\
    filter_ctc_output
      (PyList (map (fun v => PyTuple [v])
                 [PyInt 1; PyInt 1; PyInt 0; PyInt 2]))
      (PyTuple [PyInt 0])
    = Ok (PyList (map (fun v => PyTuple [v]) out)).
Proof.
  apply (filter_relabel (fun v => PyTuple [v])
           [PyInt 1; PyInt 1; PyInt 0; PyInt 2] (PyInt 0)).
  intros x y H. now injection H.
Defined.


(** ** Further facts on the loop over the batch *)

Section MoreLoop.

Variables (T : nat) (blank_id : pyval).

Implicit Types (ex : list (list Q)) (batch : list (list (list Q)))
  (lens : list Q).

Lemma combine_app_same {A B : Type} (l1 l2 : list A) (m1 m2 : list B) :
  length m1 = length l1 ->
  combine (l1 ++ l2) (m1 ++ m2) = combine l1 m1 ++ combine l2 m2.
Proof.
  revert m1. induction l1 as [| x l1 IH]; intros [| y m1] H;
    cbn in *; try discriminate; [reflexivity |].
  f_equal. apply IH. lia.
Qed.

Lemma decode_all_app (p1 p2 : list (list (list Q) * Q)) :
  decode_all T blank_id (p1 ++ p2)
  = (outs1 <- decode_all T blank_id p1 ;;
     outs2 <- decode_all T blank_id p2 ;;
     Ok (outs1 ++ outs2)).
Proof.
  induction p1 as [| [ex l] p1 IH].
  - cbn. now destruct (decode_all T blank_id p2).
  - cbn [app decode_all].
    destruct (decode_rows T blank_id ex l) as [out | e]; [| reflexivity].
    cbn [bind]. rewrite IH.
    destruct (decode_all T blank_id p1) as [outs1 | e]; [| reflexivity].
    cbn [bind].
    now destruct (decode_all T blank_id p2).
Qed.

(** The loop body reads the retained frames only. *)
Lemma predictions_of_same_frames (n : nat) ex ex' :
  same_frames n ex ex' -> predictions_of n ex = predictions_of n ex'.
Proof.
  unfold same_frames. destruct ex as [| r rest], ex' as [| r' rest'];
    cbn [map]; intros H; try discriminate H; [reflexivity |].
  injection H as Hr Hrest. cbn [predictions_of]. now rewrite Hr, Hrest.
Qed.

Lemma decode_rows_same_frames ex ex' (l : Q) :
  same_frames (frames T l) ex ex' ->
  decode_rows T blank_id ex l = decode_rows T blank_id ex' l.
Proof.
  unfold frames, decode_rows.
  destruct (actual_size_of T l) as [n | e]; [| reflexivity].
  intros H. cbn [bind].
  destruct (negb (fits_int64 n)); [reflexivity |].
  destruct ((n <? 0) || (Z.of_nat T <? n)); [reflexivity |].
  assert (Hp := predictions_of_same_frames _ ex ex' H).
  destruct ex as [| r rest], ex' as [| r' rest'];
    try (unfold same_frames in H; discriminate H); [reflexivity |].
  now rewrite Hp.
Qed.

Lemma decode_all_same_frames batch :
  forall batch' lens,
    length batch = length batch' ->
    (forall (i : nat) ex ex' (l : Q),
       nth_error batch i = Some ex ->
       nth_error batch' i = Some ex' ->
       nth_error lens i = Some l ->
       same_frames (frames T l) ex ex') ->
    decode_all T blank_id (combine batch lens)
    = decode_all T blank_id (combine batch' lens).
Proof.
  induction batch as [| ex batch IH]; intros [| ex' batch'] lens Hlen H;
    cbn in Hlen; try discriminate; [reflexivity |].
  destruct lens as [| l lens]; [reflexivity |].
  cbn [combine decode_all].
  rewrite (decode_rows_same_frames ex ex' l)
    by (apply (H 0%nat); reflexivity).
  rewrite (IH batch' lens); [reflexivity | lia |].
  intros i e e' l' He He' Hl. now apply (H (S i)).
Qed.

End MoreLoop.

(** ** Scores through an order-preserving map *)

Section Monotone.

Variable f : Q -> Q.
Hypothesis f_order : order_preserving f.

Lemma max_step_monotone (i : Z) (best : Q * Z) (v : Q) :
  max_step i (f (fst best), snd best) (f v)
  = (f (fst (max_step i best v)), snd (max_step i best v)).
Proof.
  unfold max_step. cbn [fst snd]. rewrite f_order.
  now destruct (Qle_bool v (fst best)).
Qed.

Lemma zip_step_monotone (i : Z) (best : list (Q * Z)) (row : list Q) :
  zip_step i (map (fun p => (f (fst p), snd p)) best) (map f row)
  = map (fun p => (f (fst p), snd p)) (zip_step i best row).
Proof.
  unfold zip_step. revert row.
  induction best as [| p best IH]; intros [| v row]; try reflexivity.
  cbn [map combine fst snd]. rewrite max_step_monotone. f_equal. apply IH.
Qed.

Lemma argmax_rows_monotone (rows : list (list Q)) :
  forall i best,
    argmax_rows i (map (fun p => (f (fst p), snd p)) best)
      (map (map f) rows)
    = map (fun p => (f (fst p), snd p)) (argmax_rows i best rows).
Proof.
  induction rows as [| row rows IH]; intros i best; [reflexivity |].
  cbn [map argmax_rows]. now rewrite zip_step_monotone, IH.
Qed.

Lemma predictions_of_monotone (n : nat) (ex : list (list Q)) :
  predictions_of n (map (map f) ex) = predictions_of n ex.
Proof.
  destruct ex as [| row0 rest]; [reflexivity |].
  cbn [map predictions_of].
  rewrite firstn_map, !map_map.
  assert (E : map (fun x => (f x, 0)) (firstn n row0)
              = map (fun p : Q * Z => (f (fst p), snd p))
                  (map (fun x => (x, 0)) (firstn n row0)))
    by now rewrite map_map.
  rewrite E.
  assert (E' : map (fun x => firstn n (map f x)) rest
               = map (map f) (map (firstn n) rest)).
  { rewrite map_map. apply map_ext. intros r. apply firstn_map. }
  rewrite E', argmax_rows_monotone, map_map. reflexivity.
Qed.

Lemma decode_rows_monotone (T : nat) (blank_id : pyval)
  (ex : list (list Q)) (l : Q) :
  decode_rows T blank_id (map (map f) ex) l = decode_rows T blank_id ex l.
Proof.
  unfold decode_rows.
  destruct (actual_size_of T l) as [n | e]; [| reflexivity].
  cbn [bind]. rewrite predictions_of_monotone. now destruct ex.
Qed.

Lemma decode_all_monotone (T : nat) (blank_id : pyval)
  (batch : list (list (list Q))) :
  forall lens,
    decode_all T blank_id (combine (map_scores f batch) lens)
    = decode_all T blank_id (combine batch lens).
Proof.
  unfold map_scores.
  induction batch as [| ex batch IH]; intros [| l lens]; try reflexivity.
  cbn [map combine decode_all]. now rewrite decode_rows_monotone, IH.
Qed.

End Monotone.

Lemma order_preserving_shift (c : Q) : order_preserving (fun x => (x + c)%Q).
Proof.
  intros x y. destruct (Qle_bool x y) eqn:E.
  - apply Qle_bool_iff. apply Qle_bool_iff in E. lra.
  - destruct (Qle_bool (x + c) (y + c)) eqn:E'; [| reflexivity].
    apply Qle_bool_iff in E'.
    assert (H : (x <= y)%Q) by lra. apply Qle_bool_iff in H. congruence.
Qed.

(** ** Further properties of [ctc_greedy_decode] *)

(** X9. On a batch of shape (B, V, T) with a vocabulary and frame counts
    within [[0, T]], every returned sequence holds vocabulary indices
    only, each within [[0, V)] and none equal to the blank, and is no
    longer than the number of frames retained for its example, which is
    at most T. *)
Theorem decode_entries_bounded (V T : nat) (batch : list (list (list Q)))
  (lens : list Q) (blank_id : pyval) :
  (0 < V)%nat ->
  batch_shape V T batch ->
  length lens = length batch ->
  Forall (fun l => exists n, retains T l n) lens ->
  exists outs,
    ctc_greedy_decode (tensor_of_batch V T batch) lens blank_id = Ok outs /\
    forall (i : nat) (l : Q) (out : pyval),
      nth_error lens i = Some l ->
      nth_error outs i = Some out ->
      exists items,
        out = PyList items /\
        (length items <= frames T l <= T)%nat /\
        Forall (fun v => v <> blank_id /\
                         exists k, v = PyInt (Z.of_nat k) /\ (k < V)%nat)
          items.
Proof.
  intros HV Hshape Hlen Hlens. rewrite ctc_greedy_decode_batch.
  destruct (decode_batch_in_range V T blank_id batch lens HV Hshape Hlens)
    as (outs & E & _ & Hall).
  exists outs. split; [exact E |].
  intros i l out Hl Hout.
  destruct (nth_error batch i) as [ex |] eqn:Hex.
  2:{ apply nth_error_None in Hex.
      assert (Hi : (i < length lens)%nat)
        by (apply nth_error_Some; congruence).
      lia. }
  destruct (Forall2_nth_error_l _ _ _ Hall i (ex, l)) as (out' & Hout' & ->).
  { now apply nth_error_combine. }
  cbn [fst snd] in Hout'. rewrite Hout in Hout'. injection Hout' as ->.
  eexists. split; [reflexivity |].
  destruct (batch_shape_example V T batch ex HV Hshape) as [Hne Hrows].
  { now apply nth_error_In with i. }
  rewrite Forall_forall in Hlens.
  destruct (Hlens l (nth_error_In _ _ Hl)) as (n & Hn).
  rewrite (frames_retains T l n Hn).
  assert (HnT : (n <= T)%nat) by apply Hn.
  assert (HlenV : length ex = V).
  { unfold batch_shape in Hshape. rewrite Forall_forall in Hshape.
    now apply Hshape, nth_error_In with i. }
  destruct (predictions_of_dense T n ex Hne Hrows HnT)
    as (dense & [Hdl Hdense] & Hmap).
  rewrite Hmap. split.
  - split; [| exact HnT].
    assert (Hs := subsequence_length _ _
              (filter_list_subsequence
                 (map (fun k => PyInt (Z.of_nat k)) dense) blank_id)).
    now rewrite length_map, Hdl in Hs.
  - apply Forall_forall. intros v Hv.
    apply in_filter_list_iff in Hv as [Hv Hb]. split; [exact Hb |].
    apply in_map_iff in Hv as (k & <- & Hk). exists k.
    split; [reflexivity |].
    apply (In_nth _ _ 0%nat) in Hk as (t & Ht & <-). rewrite Hdl in Ht.
    destruct (Hdense t Ht) as [Hlt _].
    unfold column in Hlt. now rewrite length_map, HlenV in Hlt.
Qed.

Lemma decode_entries_bounded_witness :
  exists outs,
    ctc_greedy_decode (tensor_of_batch 2 5 five_frames) [f32_seven_tenths]
      (PyInt 5)
    = Ok outs /\
    forall (i : nat) (l : Q) (out : pyval),
      nth_error [f32_seven_tenths] i = Some l ->
      nth_error outs i = Some out ->
      exists items,
        out = PyList items /\
        (length items <= frames 5 l <= 5)%nat /\
        Forall (fun v => v <> PyInt 5 /\
                         exists k, v = PyInt (Z.of_nat k) /\ (k < 2)%nat)
          items.
Proof.
  apply (decode_entries_bounded 2 5 five_frames [f32_seven_tenths] (PyInt 5)).
  - lia.
  - repeat constructor.
  - reflexivity.
  - repeat constructor. exists 4%nat. split; [| split].
    + vm_compute. reflexivity.
    + lia.
    + vm_compute. discriminate.
Defined.

(** X10. The padding is not read: two batches whose examples carry the
    same scores in the frames retained by their relative lengths give
    the same result, whatever the scores of the frames beyond. *)
Theorem decode_ignores_padding (V T : nat)
  (batch batch' : list (list (list Q))) (lens : list Q) (blank_id : pyval) :
  length batch = length batch' ->
  (forall (i : nat) (ex ex' : list (list Q)) (l : Q),
     nth_error batch i = Some ex ->
     nth_error batch' i = Some ex' ->
     nth_error lens i = Some l ->
     same_frames (frames T l) ex ex') ->
  ctc_greedy_decode (tensor_of_batch V T batch) lens blank_id
  = ctc_greedy_decode (tensor_of_batch V T batch') lens blank_id.
Proof.
  intros Hlen H. rewrite !ctc_greedy_decode_batch.
  now apply decode_all_same_frames.
Qed.

Lemma decode_ignores_padding_witness :
  ctc_greedy_decode (tensor_of_batch 2 5 five_frames) [f32_seven_tenths]
    (PyInt 5)
  = ctc_greedy_decode
      (tensor_of_batch 2 5 [ [ [0; 1; 0; 1; 9]; [1; 0; 1; 0; 7] ] ])%Q
      [f32_seven_tenths] (PyInt 5).
Proof.
  apply decode_ignores_padding; [reflexivity |].
  intros [| i] ex ex' l Hex Hex' Hl; cbn in Hex, Hex', Hl.
  - injection Hex as <-. injection Hex' as <-. injection Hl as <-.
    vm_compute. reflexivity.
  - destruct i; discriminate Hl.
Defined.

(** X11. The examples are decoded one by one: the result for two batches
    put end to end, with their length vectors put end to end, is the
    result for the first followed by the result for the second, and an
    error of either is the error of the whole, the first one winning. *)
Theorem decode_append (V T : nat) (batch1 batch2 : list (list (list Q)))
  (lens1 lens2 : list Q) (blank_id : pyval) :
  length lens1 = length batch1 ->
  ctc_greedy_decode (tensor_of_batch V T (batch1 ++ batch2)) (lens1 ++ lens2)
    blank_id
  = (outs1 <- ctc_greedy_decode (tensor_of_batch V T batch1) lens1 blank_id ;;
     outs2 <- ctc_greedy_decode (tensor_of_batch V T batch2) lens2 blank_id ;;
     Ok (outs1 ++ outs2)).
Proof.
  intros H. rewrite !ctc_greedy_decode_batch.
  rewrite combine_app_same by exact H. apply decode_all_app.
Qed.

Lemma decode_append_witness :
  ctc_greedy_decode (tensor_of_batch 2 2 (doc_scores ++ doc_scores))
    (doc_lens ++ doc_lens) (PyInt 0)
  = (outs1 <- ctc_greedy_decode doc_probs doc_lens (PyInt 0) ;;
     outs2 <- ctc_greedy_decode doc_probs doc_lens (PyInt 0) ;;
     Ok (outs1 ++ outs2)).
Proof.
  apply (decode_append 2 2 doc_scores doc_scores doc_lens doc_lens (PyInt 0)).
  reflexivity.
Defined.

(** X12. Only the order of the scores matters: sending every score
    through a map that keeps their order, as from probabilities to
    log-probabilities, leaves the result unchanged. *)
Theorem decode_order_preserving (f : Q -> Q) (V T : nat)
  (batch : list (list (list Q))) (lens : list Q) (blank_id : pyval) :
  order_preserving f ->
  ctc_greedy_decode (tensor_of_batch V T (map_scores f batch)) lens blank_id
  = ctc_greedy_decode (tensor_of_batch V T batch) lens blank_id.
Proof.
  intros Hf. rewrite !ctc_greedy_decode_batch.
  now apply decode_all_monotone.
Qed.

Lemma decode_order_preserving_witness :
  ctc_greedy_decode
    (tensor_of_batch 2 2 (map_scores (fun x => (x + (5 # 1))%Q) doc_scores))
    doc_lens (PyInt 0)
  = ctc_greedy_decode (tensor_of_batch 2 2 doc_scores) doc_lens (PyInt 0).
Proof.
  apply decode_order_preserving. apply order_preserving_shift.
Defined.

(** X13. A relative length beyond the padded extent is refused: on a
    batch of shape (B, V, T) with B relative lengths, a relative length
    whose float32 product with T is above [T + 1/2] has a frame count
    above T and makes the call raise, with the [RuntimeError] of
    [narrow] when the vocabulary is not empty and every frame count
    fits [int64]. *)
Theorem decode_length_too_long (V T : nat) (batch : list (list (list Q)))
  (lens : list Q) (blank_id : pyval) :
  batch_shape V T batch ->
  length lens = length batch ->
  (exists l p, In l lens /\ mul_int l T = F32 p /\
               (inject_Z (Z.of_nat T) + (1 # 2) < p)%Q) ->
  raises (ctc_greedy_decode (tensor_of_batch V T batch) lens blank_id) /\
  ((0 < V)%nat ->
   Forall (fun l' => exists n', actual_size_of T l' = Ok n' /\
                                fits_int64 n' = true) lens ->
   ctc_greedy_decode (tensor_of_batch V T batch) lens blank_id
   = Raise RuntimeError).
Proof.
  intros Hshape Hlen (l & p & Hin & Hp & Hbig).
  rewrite ctc_greedy_decode_batch.
  assert (Hn := actual_size_of_finite T l p Hp).
  assert (Hout : Z.of_nat T < round_int p) by now apply round_int_above.
  split.
  - apply (decode_batch_out_of_range T blank_id batch lens l);
      try assumption.
    right. exists (round_int p). split; [exact Hn | now right].
  - intros HV Hfit.
    apply (decode_batch_narrow_error V T blank_id batch lens l (round_int p));
      try assumption.
    now right.
Qed.

Lemma decode_length_too_long_witness :
  ctc_greedy_decode doc_probs [1%Q; (3 # 2)%Q] (PyInt 0) = Raise RuntimeError.
Proof.
  apply (decode_length_too_long 2 2 doc_scores [1%Q; (3 # 2)%Q] (PyInt 0)).
  - repeat constructor.
  - reflexivity.
  - exists (3 # 2)%Q, (3 # 1)%Q. split; [right; now left |].
    split; vm_compute; reflexivity.
  - lia.
  - repeat constructor.
    + exists 2. split; vm_compute; reflexivity.
    + exists 3. split; vm_compute; reflexivity.
Defined.

(** X14. An empty vocabulary is refused as soon as one example is paired
    with a length: on a batch of shape (B, 0, T) the first example makes
    the call raise, with the [IndexError] of [max] when its frame count
    is within [[0, T]]. *)
Theorem decode_empty_vocabulary (T : nat) (ex : list (list Q))
  (rest : list (list (list Q))) (l : Q) (ls : list Q) (blank_id : pyval) :
  batch_shape 0 T (ex :: rest) ->
  raises
    (ctc_greedy_decode (tensor_of_batch 0 T (ex :: rest)) (l :: ls)
       blank_id) /\
  forall n, retains T l n ->
    ctc_greedy_decode (tensor_of_batch 0 T (ex :: rest)) (l :: ls) blank_id
    = Raise IndexError.
Proof.
  intros Hshape. apply Forall_cons_iff in Hshape as [[Hex _] _].
  destruct ex; [| discriminate Hex].
  rewrite ctc_greedy_decode_batch. cbn [combine decode_all].
  unfold decode_rows. split.
  - destruct (actual_size_of T l) as [n | e]; [| now exists e].
    cbn [bind]. destruct (negb (fits_int64 n)); [now exists ValueError |].
    destruct ((n <? 0) || (Z.of_nat T <? n));
      [now exists RuntimeError | now exists IndexError].
  - intros n (Hn & HnT & HT). rewrite Hn. cbn [bind].
    assert (Hfit : fits_int64 (Z.of_nat n) = true).
    { unfold fits_int64. apply andb_true_iff. split; apply Z.leb_le; lia. }
    rewrite Hfit. cbn [negb].
    destruct (Z.ltb_spec (Z.of_nat n) 0); [lia |].
    destruct (Z.ltb_spec (Z.of_nat T) (Z.of_nat n)); [lia |].
    reflexivity.
Qed.

Lemma decode_empty_vocabulary_witness :
  ctc_greedy_decode (tensor_of_batch 0 2 [ [] ]) [1%Q] (PyInt 0)
  = Raise IndexError.
Proof.
  apply (proj2 (decode_empty_vocabulary 2 [] [] 1%Q [] (PyInt 0)
                  ltac:(repeat constructor)) 2%nat).
  split; [| split].
  - vm_compute. reflexivity.
  - lia.
  - vm_compute. discriminate.
Defined.

(** X15. A batch without frames (T = 0) decodes every example to the
    empty sequence, whatever the relative lengths are. *)
Theorem decode_no_frames (V : nat) (batch : list (list (list Q)))
  (lens : list Q) (blank_id : pyval) :
  (0 < V)%nat ->
  batch_shape V 0 batch ->
  length lens = length batch ->
  ctc_greedy_decode (tensor_of_batch V 0 batch) lens blank_id
  = Ok (repeat (PyList []) (length batch)).
Proof.
  intros HV Hshape Hlen. rewrite ctc_greedy_decode_batch.
  revert lens Hlen. induction batch as [| ex batch IH]; intros lens Hlen.
  - reflexivity.
  - destruct lens as [| l lens]; [discriminate Hlen |].
    destruct (batch_shape_example V 0 (ex :: batch) ex HV Hshape) as [Hne _];
      [now left |].
    apply Forall_cons_iff in Hshape as [_ Hshape].
    cbn [combine decode_all length repeat].
    rewrite (decode_rows_retains 0 blank_id ex l 0 Hne).
    2:{ split; [apply actual_size_of_no_frames |].
        split; [lia | vm_compute; discriminate]. }
    rewrite predictions_of_zero.
    cbn [bind]. rewrite (IH Hshape lens) by (cbn in Hlen; lia).
    reflexivity.
Qed.

Lemma decode_no_frames_witness :
  ctc_greedy_decode (tensor_of_batch 2 0 [ [ []; [] ]; [ []; [] ] ])
    [(7 # 1)%Q; (-3 # 1)%Q] (PyInt 0)
  = Ok [PyList []; PyList []].
Proof.
  apply (decode_no_frames 2 [ [ []; [] ]; [ []; [] ] ]
           [(7 # 1)%Q; (-3 # 1)%Q] (PyInt 0)).
  - lia.
  - repeat constructor.
  - reflexivity.
Defined.


(** ** Integers that float32 holds exactly *)

Section Exact.

Lemma Qred_inject_Z (z : Z) : Qred (inject_Z z) = inject_Z z.
Proof.
  unfold Qred, inject_Z.
  assert (H1 := Z.ggcd_gcd z 1). assert (H2 := Z.ggcd_correct_divisors z 1).
  destruct (Z.ggcd z 1) as [g [aa bb]]. cbn [fst snd] in *.
  rewrite Z.gcd_1_r in H1. subst g. destruct H2 as [Ha Hb].
  assert (Hbb : bb = 1) by lia. assert (Haa : aa = z) by lia.
  clear Ha Hb. now rewrite Hbb, Haa.
Qed.

Lemma round24_comp (q q' : Q) : (q == q')%Q -> round24 q = round24 q'.
Proof.
  intros H. unfold round24. now rewrite (Qred_complete q q' H).
Qed.

Lemma round24_small_int (z : Z) :
  0 < z <= 2 ^ 24 -> round24 (inject_Z z) = inject_Z z.
Proof.
  intros [Hpos Hle]. unfold round24. rewrite Qred_inject_Z.
  cbn [inject_Z Qnum].
  destruct (Z.eqb_spec z 0) as [-> | _]; [lia |].
  destruct (Z.ltb_spec z 0) as [Hneg | _]; [lia |].
  assert (Habs : Qabs (z # 1) = z # 1).
  { unfold Qabs. now rewrite Z.abs_eq by lia. }
  change (inject_Z z) with (z # 1). rewrite Habs.
  destruct (Z.log2_spec z Hpos) as [Hlo Hhi].
  assert (Hg0 : 0 <= Z.log2 z) by apply Z.log2_nonneg.
  assert (Hg24 : Z.log2 z <= 24).
  { destruct (Z.le_gt_cases (Z.log2 z) 24) as [H | H]; [exact H |].
    exfalso. assert (2 ^ 25 <= 2 ^ Z.log2 z) by (apply Z.pow_le_mono_r; lia).
    assert (2 ^ 24 < 2 ^ 25) by (vm_compute; reflexivity). lia. }
  assert (Hlog : Qlog2 (z # 1) = Z.log2 z).
  { unfold Qlog2. cbn [Qnum Qden]. change (Z.log2 1) with 0.
    rewrite Z.sub_0_r.
    assert (E : Qle_bool (scale2 1 (Z.log2 z)) (z # 1) = true).
    { apply Qle_bool_iff. unfold Qle, scale2.
      destruct (Z.log2 z) as [| p | p]; cbn [Qnum Qden] in *; lia. }
    now rewrite E. }
  rewrite Hlog.
  rewrite Z.max_l by lia.
  destruct (Z.eq_dec (Z.log2 z) 24) as [E24 | Hne].
  - assert (z = 2 ^ 24).
    { rewrite E24 in Hlo. lia. }
    subst z. vm_compute. reflexivity.
  - remember (23 - Z.log2 z) as k eqn:Hk.
    assert (Hk0 : 0 <= k) by lia.
    replace (- (Z.log2 z - 23)) with k by lia.
    replace (Z.log2 z - 23) with (- k) by lia.
    destruct k as [| p | p]; [| | lia].
    + cbn [scale2 Z.opp].
      rewrite (round_int_integer (z # 1) z) by reflexivity.
      exact (Qred_inject_Z z).
    + cbn [scale2 Z.opp Qnum Qden].
      rewrite (round_int_integer _ (z * 2 ^ Z.pos p)) by reflexivity.
      transitivity (Qred (inject_Z z)); [| apply Qred_inject_Z].
      apply Qred_complete.
      unfold Qeq, inject_Z. cbn [Qnum Qden].
      rewrite Pos2Z.inj_mul, Pos2Z.inj_pow. lia.
Qed.

Lemma rn32_small_int (z : Z) (q : Q) :
  0 < z <= 2 ^ 24 -> (q == inject_Z z)%Q -> rn32 q = F32 (inject_Z z).
Proof.
  intros Hz Hq. unfold rn32.
  rewrite (round24_comp q (inject_Z z) Hq), (round24_small_int z Hz).
  assert (E : Qle_bool (inject_Z (2 ^ 128)) (Qabs (inject_Z z)) = false).
  { destruct (Qle_bool _ _) eqn:E; [| reflexivity].
    apply Qle_bool_iff in E. unfold Qabs, inject_Z in E.
    rewrite Z.abs_eq in E by lia. unfold Qle in E. cbn [Qnum Qden] in E.
    assert (2 ^ 24 < 2 ^ 128) by (vm_compute; reflexivity). lia. }
  now rewrite E.
Qed.

End Exact.

(** X16. The ends of the range of relative lengths: the relative length
    1 retains all T frames as long as T is at most [2 ^ 24], the
    integers that float32 holds exactly, and one frame is lost at
    T = 16777217; the relative length 0 retains no frame, and a
    negative relative length never retains one. *)
Theorem actual_size_ends :
  (forall T : nat,
     Z.of_nat T <= 2 ^ 24 -> actual_size_of T 1 = Ok (Z.of_nat T)) /\
  actual_size_of (Z.to_nat 16777217) 1 = Ok 16777216 /\
  (forall (T : nat) (l : Q), (l == 0)%Q -> actual_size_of T l = Ok 0) /\
  (forall (T : nat) (l : Q) (n : Z),
     (l <= 0)%Q -> actual_size_of T l = Ok n -> n <= 0).
Proof.
  split; [| split; [| split]].
  - intros T HT. destruct T as [| T]; [apply actual_size_of_no_frames |].
    assert (Hz : 0 < Z.of_nat (S T) <= 2 ^ 24) by lia.
    rewrite (actual_size_of_finite (S T) 1 (inject_Z (Z.of_nat (S T)))).
    + now rewrite (round_int_integer _ (Z.of_nat (S T))).
    + unfold mul_int, f32_of_int. rewrite (round24_small_int _ Hz).
      apply (rn32_small_int _ _ Hz). apply Qmult_1_l.
  - unfold actual_size_of, mul_int. rewrite Z2Nat.id by lia.
    vm_compute. reflexivity.
  - intros T l. apply actual_size_of_zero.
  - intros T l n. apply actual_size_of_nonpos.
Qed.

Lemma actual_size_ends_witness :
  Z.of_nat 8 <= 2 ^ 24 /\ actual_size_of 8 1 = Ok (Z.of_nat 8).
Proof.
  assert (H : Z.of_nat 8 <= 2 ^ 24) by (vm_compute; discriminate).
  split; [exact H |].
  exact (proj1 actual_size_ends 8%nat H).
Defined.

(** ** The float32 rounding on known values *)

Example rn32_tenth : rn32 (1 # 10) = F32 f32_tenth.
Proof. vm_compute. reflexivity. Qed.

Example rn32_seven_tenths : rn32 (7 # 10) = F32 f32_seven_tenths.
Proof. vm_compute. reflexivity. Qed.

Example rn32_odd_integer : rn32 (inject_Z 16777217) = F32 (inject_Z 16777216).
Proof. vm_compute. reflexivity. Qed.

Example rn32_largest :
  rn32 (inject_Z (2 ^ 128 - 2 ^ 103 - 1))
  = F32 (inject_Z (2 ^ 128 - 2 ^ 104)) /\
  rn32 (inject_Z (2 ^ 128 - 2 ^ 103)) = F32inf false.
Proof. split; vm_compute; reflexivity. Qed.

Example rn32_smallest :
  rn32 (1 # 2 ^ 149) = F32 (1 # 2 ^ 149) /\
  rn32 (1 # 2 ^ 150) = F32 0 /\
  rn32 (3 # 2 ^ 150) = F32 (1 # 2 ^ 148).
Proof. repeat split; vm_compute; reflexivity. Qed.

Example actual_size_of_overflows :
  actual_size_of 10 (inject_Z (10 ^ 38)) = Raise OverflowError /\
  ctc_greedy_decode unit_probs [inject_Z (10 ^ 30)] (PyInt 0)
  = Raise ValueError /\
  ctc_greedy_decode unit_probs [(- inject_Z (10 ^ 19))%Q] (PyInt 0)
  = Raise ValueError.
Proof. repeat split; vm_compute; reflexivity. Qed.
